(** * A shallow embedding of the intscript toolchain

    The assembler IR and encoder ([src/as/ast.cc], [src/as/encode.cc]),
    the IntCode virtual machine ([src/run/intcode.cc], [src/util/io.cc]),
    and the parts of the source-language parser and code generator
    ([compiler/parser.cc], [compiler/codegen.cc]) the properties below are
    about.  Fatal errors ([std::exit], [std::abort], a failed [check]) are
    modelled by [None] or by an explicit trap result. *)

From Stdlib Require Import ZArith Lia Bool.
From stdpp Require Import gmap strings list.

Open Scope Z_scope.
Set Warnings "-register-all".


(* ------------------------------------------------------------------ *)
(** ** 64-bit signed arithmetic ([std::int64_t]) *)

Module Word.

Definition modulus : Z := 2 ^ 64.
Definition min_value : Z := - 2 ^ 63.
Definition max_value : Z := 2 ^ 63 - 1.

(** Two's complement wrap-around of an integer into [int64_t]. *)
Definition wrap (z : Z) : Z :=
  let r := z mod modulus in
  if r <? 2 ^ 63 then r else r - modulus.

Definition in_range (z : Z) : bool := (min_value <=? z) && (z <=? max_value).

Definition add (a b : Z) : Z := wrap (a + b).
Definition mul (a b : Z) : Z := wrap (a * b).

End Word.

(* ------------------------------------------------------------------ *)
(** ** The assembly IR and encoder ([namespace as]) *)

Module As.

(** [using immediate = std::variant<literal, name>] *)
Inductive immediate :=
| literal (value : Z)
| name (value : string).

(** [input_param::type = std::variant<address, immediate, relative>] *)
Inductive input_kind :=
| in_address (value : immediate)
| in_immediate (value : immediate)
| in_relative (value : immediate).

Record input_param := { ip_label : option string; ip_input : input_kind }.

(** [output_param] holds [std::variant<address, relative>]. *)
Inductive output_kind :=
| out_address (value : immediate)
| out_relative (value : immediate).

Record output_param := { op_label : option string; op_output : output_kind }.

(** [input_param(const output_param&)]: keeps the label. *)
Definition input_of_output (o : output_param) : input_param :=
  {| ip_label := op_label o;
     ip_input := match op_output o with
                 | out_address v => in_address v
                 | out_relative v => in_relative v
                 end |}.

Record calculation := { ca : input_param; cb : input_param; cout : output_param }.
Record jump := { condition : input_param; target : input_param }.

Inductive instruction :=
| Literal (value : Z)
| Add (c : calculation)
| Mul (c : calculation)
| Input (out : output_param)
| Output (x : input_param)
| JumpIfTrue (j : jump)
| JumpIfFalse (j : jump)
| LessThan (c : calculation)
| Equals (c : calculation)
| AdjustRelativeBase (amount : input_param)
| Halt.

Inductive directive :=
| define (name : string) (value : input_param)
| integer (value : immediate)
| ascii (value : string).

Inductive statement :=
| label (name : string)
| instr (i : instruction)
| dir (d : directive).

(** [int size(const instruction&)] *)
Definition size (i : instruction) : Z :=
  match i with
  | Literal _ => 1
  | Add _ | Mul _ | LessThan _ | Equals _ => 4
  | JumpIfTrue _ | JumpIfFalse _ => 3
  | Input _ | Output _ | AdjustRelativeBase _ => 2
  | Halt => 1
  end.

Definition mode_in (i : input_param) : Z :=
  match ip_input i with
  | in_address _ => 0
  | in_immediate _ => 1
  | in_relative _ => 2
  end.

Definition mode_out (o : output_param) : Z :=
  match op_output o with
  | out_address _ => 0
  | out_relative _ => 2
  end.

Definition mode_calc (c : calculation) : Z :=
  mode_in (ca c) + 10 * mode_in (cb c) + 100 * mode_out (cout c).

Definition mode_jump (j : jump) : Z :=
  mode_in (condition j) + 10 * mode_in (target j).

(** [std::int64_t mode(const instruction&)] *)
Definition mode (i : instruction) : Z :=
  match i with
  | Literal _ => 0
  | Add c | Mul c | LessThan c | Equals c => mode_calc c
  | Input o => mode_out o
  | Output x => mode_in x
  | JumpIfTrue j | JumpIfFalse j => mode_jump j
  | AdjustRelativeBase a => mode_in a
  | Halt => 0
  end.

(** [std::int64_t opcode(const instruction&)] *)
Definition opcode (i : instruction) : Z :=
  let code := match i with
              | Literal v => v
              | Add _ => 1 | Mul _ => 2 | Input _ => 3 | Output _ => 4
              | JumpIfTrue _ => 5 | JumpIfFalse _ => 6
              | LessThan _ => 7 | Equals _ => 8
              | AdjustRelativeBase _ => 9 | Halt => 99
              end in
  100 * mode i + code.

(** [immediate_value]: an unresolved name aborts. *)
Definition immediate_value (i : immediate) : option Z :=
  match i with
  | literal v => Some v
  | name _ => None
  end.

Definition param_value_in (i : input_param) : option Z :=
  match ip_input i with
  | in_address v | in_immediate v | in_relative v => immediate_value v
  end.

Definition param_value_out (o : output_param) : option Z :=
  match op_output o with
  | out_address v | out_relative v => immediate_value v
  end.

(** The operand cells pushed after the head, in operand order. *)
Definition operand_values (i : instruction) : option (list Z) :=
  match i with
  | Literal _ | Halt => Some []
  | Add c | Mul c | LessThan c | Equals c =>
      a ← param_value_in (ca c); b ← param_value_in (cb c);
      o ← param_value_out (cout c); Some [a; b; o]
  | Input o => v ← param_value_out o; Some [v]
  | Output x => v ← param_value_in x; Some [v]
  | JumpIfTrue j | JumpIfFalse j =>
      a ← param_value_in (condition j); b ← param_value_in (target j); Some [a; b]
  | AdjustRelativeBase a => v ← param_value_in a; Some [v]
  end.

(** [void encode(std::vector<std::int64_t>&, const instruction&)]:
    the cells appended to the buffer. *)
Definition encode_instruction (i : instruction) : option (list Z) :=
  vs ← operand_values i; Some (opcode i :: vs).

(** The labels carried by the operands, with the [visit_params] index. *)
Definition param_labels (i : instruction) : list (option string * Z) :=
  match i with
  | Literal _ | Halt => []
  | Add c | Mul c | LessThan c | Equals c =>
      [(ip_label (ca c), 1); (ip_label (cb c), 2); (op_label (cout c), 3)]
  | Input o => [(op_label o, 1)]
  | Output x => [(ip_label x, 1)]
  | JumpIfTrue j | JumpIfFalse j =>
      [(ip_label (condition j), 1); (ip_label (target j), 2)]
  | AdjustRelativeBase a => [(ip_label a, 1)]
  end.

(** [struct environment]. *)
Record environment := {
  constants : gmap string Z;
  macros : gmap string input_param;
}.

(** The [set] lambda: [emplace], and exit on a duplicate. *)
Definition set {V} (m : gmap string V) (k : string) (v : V) : option (gmap string V) :=
  match m !! k with
  | Some _ => None
  | None => Some (<[k := v]> m)
  end.

Fixpoint set_labels (cs : gmap string Z) (offset : Z)
    (ls : list (option string * Z)) : option (gmap string Z) :=
  match ls with
  | [] => Some cs
  | (None, _) :: ls' => set_labels cs offset ls'
  | (Some l, index) :: ls' =>
      cs' ← set cs l (offset + index); set_labels cs' offset ls'
  end.

(** One iteration of the loop of [environment::environment]. *)
Definition env_step (e : environment) (offset : Z) (s : statement)
    : option (environment * Z) :=
  match s with
  | label l =>
      cs ← set (constants e) l offset;
      Some ({| constants := cs; macros := macros e |}, offset)
  | instr i =>
      cs ← set_labels (constants e) offset (param_labels i);
      Some ({| constants := cs; macros := macros e |}, offset + size i)
  | dir (define n v) =>
      ms ← set (macros e) n v;
      Some ({| constants := constants e; macros := ms |}, offset)
  | dir (integer _) => Some (e, offset + 1)
  | dir (ascii a) => Some (e, offset + Z.of_nat (String.length a) + 1)
  end.

Fixpoint env_loop (e : environment) (offset : Z) (ss : list statement)
    : option environment :=
  match ss with
  | [] => Some e
  | s :: ss' => '(e', offset') ← env_step e offset s; env_loop e' offset' ss'
  end.

Definition make_environment (ss : list statement) : option environment :=
  env_loop {| constants := ∅; macros := ∅ |} 0 ss.

(** [environment::resolve(immediate&)]: only [constants] is consulted. *)
Definition resolve_immediate (e : environment) (x : immediate) : option immediate :=
  match x with
  | literal _ => Some x
  | name n =>
      match constants e !! n with
      | Some v => Some (literal v)
      | None => None
      end
  end.

Definition resolve_input (e : environment) (i : input_param) : option input_param :=
  k ← match ip_input i with
      | in_address v => v' ← resolve_immediate e v; Some (in_address v')
      | in_immediate v => v' ← resolve_immediate e v; Some (in_immediate v')
      | in_relative v => v' ← resolve_immediate e v; Some (in_relative v')
      end;
  Some {| ip_label := ip_label i; ip_input := k |}.

Definition resolve_output (e : environment) (o : output_param) : option output_param :=
  k ← match op_output o with
      | out_address v => v' ← resolve_immediate e v; Some (out_address v')
      | out_relative v => v' ← resolve_immediate e v; Some (out_relative v')
      end;
  Some {| op_label := op_label o; op_output := k |}.

Definition resolve_calc (e : environment) (c : calculation) : option calculation :=
  a ← resolve_input e (ca c); b ← resolve_input e (cb c);
  o ← resolve_output e (cout c); Some {| ca := a; cb := b; cout := o |}.

Definition resolve_jump (e : environment) (j : jump) : option jump :=
  a ← resolve_input e (condition j); b ← resolve_input e (target j);
  Some {| condition := a; target := b |}.

Definition resolve_instruction (e : environment) (i : instruction) : option instruction :=
  match i with
  | Literal _ | Halt => Some i
  | Add c => c' ← resolve_calc e c; Some (Add c')
  | Mul c => c' ← resolve_calc e c; Some (Mul c')
  | LessThan c => c' ← resolve_calc e c; Some (LessThan c')
  | Equals c => c' ← resolve_calc e c; Some (Equals c')
  | Input o => o' ← resolve_output e o; Some (Input o')
  | Output x => x' ← resolve_input e x; Some (Output x')
  | JumpIfTrue j => j' ← resolve_jump e j; Some (JumpIfTrue j')
  | JumpIfFalse j => j' ← resolve_jump e j; Some (JumpIfFalse j')
  | AdjustRelativeBase a => a' ← resolve_input e a; Some (AdjustRelativeBase a')
  end.

(** A [char] of a [std::string] as the [int64_t] it is copied into
    ([char] is signed). *)
Definition char_value (c : Ascii.ascii) : Z :=
  let n := Z.of_nat (Ascii.nat_of_ascii c) in
  if n <? 128 then n else n - 256.

Definition encode_statement (e : environment) (s : statement) : option (list Z) :=
  match s with
  | label _ => Some []
  | instr i => i' ← resolve_instruction e i; encode_instruction i'
  | dir (define _ _) => Some []
  | dir (integer v) => v' ← resolve_immediate e v; x ← immediate_value v'; Some [x]
  | dir (ascii a) => Some (map char_value (String.list_ascii_of_string a) ++ [0])
  end.

Fixpoint encode_loop (e : environment) (ss : list statement) : option (list Z) :=
  match ss with
  | [] => Some []
  | s :: ss' => xs ← encode_statement e s; ys ← encode_loop e ss'; Some (xs ++ ys)
  end.

(** [std::vector<std::int64_t> encode(std::span<const statement>)] *)
Definition encode (ss : list statement) : option (list Z) :=
  e ← make_environment ss; encode_loop e ss.

End As.

(* ------------------------------------------------------------------ *)
(** ** The IntCode virtual machine ([module intcode]) *)

Module Intcode.

Inductive mode := position | immediate | relative.

Definition is_mode (x : Z) : bool := (0 <=? x) && (x <=? 2).

Definition mode_of (x : Z) : mode :=
  if x =? 0 then position else if x =? 1 then immediate else relative.

Inductive opcode :=
| illegal | add | mul | input | output | jump_if_true | jump_if_false
| less_than | equals | adjust_relative_base | halt.

Definition is_opcode (x : Z) : bool := ((1 <=? x) && (x <=? 9)) || (x =? 99).

Definition opcode_of (x : Z) : opcode :=
  match x with
  | 1 => add | 2 => mul | 3 => input | 4 => output
  | 5 => jump_if_true | 6 => jump_if_false | 7 => less_than | 8 => equals
  | 9 => adjust_relative_base | 99 => halt
  | _ => illegal
  end.

(** [struct op]; [params] are zero-initialised, i.e. [position]. *)
Record op := { code : opcode; param0 : mode; param1 : mode; param2 : mode }.

Definition default_op : op :=
  {| code := illegal; param0 := position; param1 := position; param2 := position |}.

Definition param (o : op) (i : nat) : mode :=
  match i with 0%nat => param0 o | 1%nat => param1 o | _ => param2 o end.

(** The [parse_op] lambda of the [ops] table. *)
Definition parse_op (x : Z) : op :=
  let c := Z.rem x 100 in
  if negb (is_opcode c) then default_op else
  let x := Z.quot x 100 in
  if negb (is_mode (Z.rem x 10)) then default_op else
  let m0 := mode_of (Z.rem x 10) in
  let x := Z.quot x 10 in
  if negb (is_mode (Z.rem x 10)) then default_op else
  let m1 := mode_of (Z.rem x 10) in
  let x := Z.quot x 10 in
  if negb (is_mode (Z.rem x 10)) then default_op else
  let m2 := mode_of (Z.rem x 10) in
  let x := Z.quot x 10 in
  if negb (x =? 0) then default_op else
  let result := {| code := opcode_of c; param0 := m0; param1 := m1; param2 := m2 |} in
  match opcode_of c with
  | add | mul | less_than | equals =>
      match m2 with immediate => default_op | _ => result end
  | input =>
      match m0 with immediate => default_op | _ => result end
  | _ => result
  end.

Definition table_size : Z := 29999.

(** [op decode_op(value_type x)]: [None] is the failed [check]. *)
Definition decode_op (x : Z) : option op :=
  if (0 <=? x) && (x <? table_size) then Some (parse_op x) else None.

(** [enum state] of [class program]. *)
Inductive state := ready | waiting_for_input | output_ready | halted.

Definition state_eqb (a b : state) : bool :=
  match a, b with
  | ready, ready | waiting_for_input, waiting_for_input
  | output_ready, output_ready | halted, halted => true
  | _, _ => false
  end.

(** The fields of [class program]; [memory] reads a never-written cell
    as zero. *)
Record program := {
  memory : gmap Z Z;
  pc : Z;
  input_address : Z;
  output_value : Z;
  relative_base : Z;
  st : state;
}.

Definition read (m : gmap Z Z) (i : Z) : Z := default 0 (m !! i).

Definition with_memory (p : program) (m : gmap Z Z) : program :=
  {| memory := m; pc := pc p; input_address := input_address p;
     output_value := output_value p; relative_base := relative_base p; st := st p |}.
Definition with_pc (p : program) (x : Z) : program :=
  {| memory := memory p; pc := x; input_address := input_address p;
     output_value := output_value p; relative_base := relative_base p; st := st p |}.
Definition with_base (p : program) (x : Z) : program :=
  {| memory := memory p; pc := pc p; input_address := input_address p;
     output_value := output_value p; relative_base := x; st := st p |}.
Definition with_state (p : program) (s : state) : program :=
  {| memory := memory p; pc := pc p; input_address := input_address p;
     output_value := output_value p; relative_base := relative_base p; st := s |}.
Definition with_input_address (p : program) (x : Z) : program :=
  {| memory := memory p; pc := pc p; input_address := x;
     output_value := output_value p; relative_base := relative_base p; st := st p |}.
Definition with_output (p : program) (x : Z) : program :=
  {| memory := memory p; pc := pc p; input_address := input_address p;
     output_value := x; relative_base := relative_base p; st := st p |}.

(** [explicit program(const_span source)]: cell [i] holds [source[i]]. *)
Fixpoint load_memory (m : gmap Z Z) (i : Z) (source : list Z) : gmap Z Z :=
  match source with
  | [] => m
  | x :: xs => load_memory (<[i := x]> m) (i + 1) xs
  end.

Definition make_program (source : list Z) : program :=
  {| memory := load_memory ∅ 0 source; pc := 0; input_address := 0;
     output_value := 0; relative_base := 0; st := ready |}.

(** Why the process dies. *)
Inductive trap :=
| check_failed        (* a failed [check(...)] *)
| illegal_instruction (* the [opcode::illegal] branch *)
| immediate_write.    (* [std::abort()] of an immediate destination *)

(** The [get] lambda of [resume]. *)
Definition get (p : program) (o : op) (i : nat) : Z :=
  let x := read (memory p) (Word.add (pc p) (Z.of_nat i + 1)) in
  match param o i with
  | position => read (memory p) x
  | immediate => x
  | relative => read (memory p) (Word.add (relative_base p) x)
  end.

(** The destination cell of the [put] lambda ([None]: [std::abort]). *)
Definition put_address (p : program) (o : op) (i : nat) : option Z :=
  let x := read (memory p) (Word.add (pc p) (Z.of_nat i + 1)) in
  match param o i with
  | position => Some x
  | immediate => None
  | relative => Some (Word.add (relative_base p) x)
  end.

Inductive step_result :=
| Continue (p : program)   (* back to the top of [while (true)] *)
| Return (p : program)     (* [return state_ = ...] *)
| Trap (t : trap).

Definition bool_value (b : bool) : Z := if b then 1 else 0.

(** A calculation: [put(2, f(get(0), get(1))); pc_ += 4;]. *)
Definition calc (p : program) (o : op) (f : Z -> Z -> Z) : step_result :=
  let v := f (get p o 0) (get p o 1) in
  match put_address p o 2 with
  | None => Trap immediate_write
  | Some a => Continue (with_pc (with_memory p (<[a := v]> (memory p))) (Word.add (pc p) 4))
  end.

(** One iteration of the loop in [program::resume]. *)
Definition step (p : program) : step_result :=
  match decode_op (read (memory p) (pc p)) with
  | None => Trap check_failed
  | Some o =>
      match code o with
      | illegal => Trap illegal_instruction
      | add => calc p o Word.add
      | mul => calc p o Word.mul
      | input =>
          match param0 o with
          | position =>
              Return (with_state (with_input_address p
                        (read (memory p) (Word.add (pc p) 1))) waiting_for_input)
          | immediate => Trap immediate_write
          | relative =>
              Return (with_state (with_input_address p
                        (Word.add (relative_base p) (read (memory p) (Word.add (pc p) 1))))
                        waiting_for_input)
          end
      | output => Return (with_state (with_output p (get p o 0)) output_ready)
      | jump_if_true =>
          Continue (with_pc p (if negb (get p o 0 =? 0) then get p o 1
                               else Word.add (pc p) 3))
      | jump_if_false =>
          Continue (with_pc p (if negb (get p o 0 =? 0) then Word.add (pc p) 3
                               else get p o 1))
      | less_than => calc p o (fun a b => bool_value (a <? b))
      | equals => calc p o (fun a b => bool_value (a =? b))
      | adjust_relative_base =>
          Continue (with_pc (with_base p (Word.add (relative_base p) (get p o 0)))
                            (Word.add (pc p) 2))
      | halt => Return (with_state p halted)
      end
  end.

(** The outcome of [resume()], given a bound on loop iterations. *)
Inductive outcome :=
| Resumed (p : program)
| Died (t : trap)
| OutOfFuel.

Fixpoint run_loop (fuel : nat) (p : program) : outcome :=
  match fuel with
  | O => OutOfFuel
  | S f =>
      match step p with
      | Continue p' => run_loop f p'
      | Return p' => Resumed p'
      | Trap t => Died t
      end
  end.

(** [state resume()]: [check(state_ == ready)] then the loop. *)
Definition resume (fuel : nat) (p : program) : outcome :=
  if state_eqb (st p) ready then run_loop fuel p else Died check_failed.

(** [void provide_input(value_type x)] *)
Definition provide_input (p : program) (x : Z) : option program :=
  if state_eqb (st p) waiting_for_input then
    let p1 := with_state p ready in
    let p2 := with_memory p1 (<[input_address p1 := x]> (memory p1)) in
    Some (with_pc p2 (Word.add (pc p2) 2))
  else None.

(** [value_type get_output()] *)
Definition get_output (p : program) : option (Z * program) :=
  if state_eqb (st p) output_ready then
    let p1 := with_state p ready in
    let p2 := with_pc p1 (Word.add (pc p1) 2) in
    Some (output_value p2, p2)
  else None.

End Intcode.

(* ------------------------------------------------------------------ *)
(** ** Reading an IntCode text ([class scanner], [program::load]) *)

Module Load.

Definition code (c : Ascii.ascii) : nat := Ascii.nat_of_ascii c.

(** [is_space]: the characters of [" \f\n\r\t\v"]. *)
Definition is_space (c : Ascii.ascii) : bool :=
  let n := code c in
  (n =? 32)%nat || (n =? 12)%nat || (n =? 10)%nat || (n =? 13)%nat
  || (n =? 9)%nat || (n =? 11)%nat.

Definition is_digit (c : Ascii.ascii) : bool := (48 <=? code c)%nat && (code c <=? 57)%nat.

Definition digit_value (c : Ascii.ascii) : Z := Z.of_nat (code c) - 48.

Definition minus_sign : Ascii.ascii := Ascii.ascii_of_nat 45.
Definition comma : Ascii.ascii := Ascii.ascii_of_nat 44.
Definition newline : Ascii.ascii := Ascii.ascii_of_nat 10.

(** [scanner >> whitespace]: [find_if_not(first, last, is_space)]. *)
Fixpoint skip_whitespace (s : list Ascii.ascii) : list Ascii.ascii :=
  match s with
  | c :: s' => if is_space c then skip_whitespace s' else s
  | [] => []
  end.

(** The maximal run of decimal digits, its value accumulated from [acc]. *)
Fixpoint take_digits (acc : Z) (s : list Ascii.ascii) : Z * list Ascii.ascii :=
  match s with
  | c :: s' => if is_digit c then take_digits (10 * acc + digit_value c) s' else (acc, s)
  | [] => (acc, [])
  end.

Definition starts_with_digit (s : list Ascii.ascii) : bool :=
  match s with c :: _ => is_digit c | [] => false end.

(** [std::from_chars] into an [int64_t], base 10: an optional ['-'],
    at least one digit, and [result_out_of_range] past [int64_t]. *)
Definition from_chars (s : list Ascii.ascii) : option (Z * list Ascii.ascii) :=
  let '(neg, body) := match s with
                      | c :: s' => if Ascii.eqb c minus_sign then (true, s') else (false, s)
                      | [] => (false, [])
                      end in
  if starts_with_digit body then
    let '(v, rest) := take_digits 0 body in
    let v := if neg then - v else v in
    if Word.in_range v then Some (v, rest) else None
  else None.

(** [scanner >> a] for an arithmetic [a] (an error state aborts at
    [check_ok], so it is [None] here). *)
Definition scan_value (s : list Ascii.ascii) : option (Z * list Ascii.ascii) :=
  from_chars (skip_whitespace s).

(** [scanner >> exact(",")]: skips leading whitespace. *)
Definition scan_comma (s : list Ascii.ascii) : option (list Ascii.ascii) :=
  match skip_whitespace s with
  | c :: s' => if Ascii.eqb c comma then Some s' else None
  | [] => None
  end.

(** [scanner::done()] *)
Definition done (s : list Ascii.ascii) : bool := forallb is_space s.

(** The [while (!scanner.done())] loop of [program::load]; [n] values
    have been read into [acc] (reversed).  [fuel] bounds the number of
    iterations; every iteration consumes at least one character. *)
Fixpoint load_loop (fuel : nat) (size n : nat) (acc : list Z) (s : list Ascii.ascii)
    : option (list Z) :=
  if done s then Some (rev acc) else
  match fuel with
  | O => None
  | S f =>
      if (n <? size)%nat then
        s1 ← scan_comma s;
        '(v, s2) ← scan_value s1;
        load_loop f size (S n) (v :: acc) s2
      else None
  end.

(** [static span load(std::string_view source, span buffer)] with a
    buffer of [size] cells; [None] is a failed [check]. *)
Definition load (size : nat) (s : list Ascii.ascii) : option (list Z) :=
  if (0 <? size)%nat then
    '(v, s1) ← scan_value s;
    load_loop (S (length s1)) size 1 [v] s1
  else None.

(** [program::max_size], the size of the buffer [run] passes. *)
Definition max_size : nat := 5000.

End Load.

(* ------------------------------------------------------------------ *)
(** ** The source language ([namespace compiler]) *)

Module Compiler.

(** [struct expression], without [call], string literals and the
    short-circuit operators, which none of the properties below use. *)
Inductive expression :=
| e_literal (value : Z)
| e_name (value : string)
| e_add (left right : expression)
| e_sub (left right : expression)
| e_mul (left right : expression)
| e_less_than (left right : expression)
| e_equals (left right : expression)
| e_input
| e_read (address : expression).

(** [struct statement], without the [call] statement. *)
Inductive statement :=
| constant (name : string) (value : expression)
| declare_scalar (name : string)
| declare_array (name : string) (size : expression)
| assign (left right : expression)
| add_assign (left right : expression)
| if_statement (condition : expression) (then_branch else_branch : list statement)
| while_statement (condition : expression) (body : list statement)
| output_statement (value : expression)
| return_statement (value : expression)
| break_statement
| continue_statement
| halt_statement.

(** *** The parser ([struct parser]), on the text still to be read. *)

Definition is_alpha (c : Ascii.ascii) : bool :=
  let n := Load.code c in ((65 <=? n) && (n <=? 90))%nat || ((97 <=? n) && (n <=? 122))%nat.
Definition is_alnum (c : Ascii.ascii) : bool := is_alpha c || Load.is_digit c.

Definition space : Ascii.ascii := Ascii.ascii_of_nat 32.
Definition hash : Ascii.ascii := Ascii.ascii_of_nat 35.

Fixpoint skip_to_newline (s : list Ascii.ascii) : list Ascii.ascii :=
  match s with
  | [] => []
  | c :: s' => if Ascii.eqb c Load.newline then s else skip_to_newline s'
  end.

(** [skip_whitespace]: spaces, and comments from ['#'] to the newline. *)
Fixpoint skip_whitespace (fuel : nat) (s : list Ascii.ascii) : list Ascii.ascii :=
  match fuel with
  | O => s
  | S f =>
      match s with
      | c :: s' =>
          if Ascii.eqb c space then skip_whitespace f s'
          else if Ascii.eqb c hash then skip_whitespace f (skip_to_newline s')
          else s
      | [] => []
      end
  end.

Definition skip (s : list Ascii.ascii) := skip_whitespace (length s) s.

Fixpoint take_alnum (s : list Ascii.ascii) : list Ascii.ascii :=
  match s with
  | c :: s' => if is_alnum c then c :: take_alnum s' else []
  | [] => []
  end.

(** [peek_name]: skips whitespace, returns the name and the text. *)
Definition peek_name (s : list Ascii.ascii) : list Ascii.ascii * list Ascii.ascii :=
  let s := skip s in (take_alnum s, s).

(** [consume_name] *)
Definition consume_name (value : string) (s : list Ascii.ascii)
    : bool * list Ascii.ascii :=
  let '(n, s') := peek_name s in
  let v := String.list_ascii_of_string value in
  if decide (n = v) then (true, drop (length v) s') else (false, s').

(** [eat_name]: dies unless the next name is [value]. *)
Definition eat_name (value : string) (s : list Ascii.ascii) : option (list Ascii.ascii) :=
  let '(ok, s') := consume_name value s in if ok then Some s' else None.

Fixpoint starts_with (p s : list Ascii.ascii) : bool :=
  match p, s with
  | [], _ => true
  | c :: p', d :: s' => Ascii.eqb c d && starts_with p' s'
  | _ :: _, [] => false
  end.

(** [eat]: skips whitespace, dies unless [value] follows. *)
Definition eat (value : string) (s : list Ascii.ascii) : option (list Ascii.ascii) :=
  let s := skip s in
  let v := String.list_ascii_of_string value in
  if starts_with v s then Some (drop (length v) s) else None.

Definition parse_break_statement (s : list Ascii.ascii)
    : option (statement * list Ascii.ascii) :=
  s1 ← eat_name "break" s; s2 ← eat ";" s1; Some (break_statement, s2).

Definition parse_continue_statement (s : list Ascii.ascii)
    : option (statement * list Ascii.ascii) :=
  s1 ← eat_name "return" s; s2 ← eat ";" s1; Some (continue_statement, s2).

Definition parse_halt_statement (s : list Ascii.ascii)
    : option (statement * list Ascii.ascii) :=
  s1 ← eat_name "halt" s; s2 ← eat ";" s1; Some (halt_statement, s2).

(** Which branch of the [parse_line] lambda of [parse_statements] handles
    a line. *)
Inductive line_kind :=
| k_const | k_var | k_if | k_while | k_output | k_return
| k_break | k_continue | k_halt | k_expression.

Definition line_kind_of (s : list Ascii.ascii) : line_kind :=
  match s with
  | c :: _ =>
      if is_alpha c then
        let w := String.string_of_list_ascii (fst (peek_name s)) in
        if String.eqb w "const" then k_const
        else if String.eqb w "var" then k_var
        else if String.eqb w "if" then k_if
        else if String.eqb w "while" then k_while
        else if String.eqb w "output" then k_output
        else if String.eqb w "return" then k_return
        else if String.eqb w "break" then k_break
        else if String.eqb w "continue" then k_continue
        else if String.eqb w "halt" then k_halt
        else k_expression
      else k_expression
  | [] => k_expression
  end.

End Compiler.

(* ------------------------------------------------------------------ *)
(** ** The code generator ([compiler/codegen.cc]) *)

Module Codegen.
Import Compiler.

(** [std::to_string] of a non-negative count. *)
Fixpoint digits_of (fuel n : nat) (acc : string) : string :=
  match fuel with
  | O => acc
  | S f =>
      let acc' := String.String (Ascii.ascii_of_nat (48 + n mod 10)) acc in
      if (n <? 10)%nat then acc' else digits_of f (n / 10) acc'
  end.
Definition to_string (n : nat) : string := digits_of (S n) n "".

(** [struct module_context] (the fields code generation reads). *)
Record module_context := {
  imported_variables : list string;
  imported_constants : gmap string As.immediate;
  variables : list string;
  module_constants : gmap string As.immediate;
}.

(** [struct function_context::environment] *)
Record environment := {
  size : Z;
  env_variables : gmap string Z;
  env_constants : gmap string As.immediate;
  break_label : option string;
  continue_label : option string;
}.

(** The state code generation threads: [context::labels],
    [context::text], and the fields of [struct function_context].
    [scope] lists the frames innermost first ([scope.back()] is the
    head). *)
Record cg := {
  labels : gmap string nat;
  text : list As.statement;
  module : module_context;
  function_name : string;
  arguments : list string;
  scope : list environment;
  max_size : Z;
}.

(** A state and error monad: [None] is [die] (or [std::abort]). *)
Definition M (A : Type) : Type := cg -> option (A * cg).
Definition ret {A} (x : A) : M A := fun s => Some (x, s).
Definition bind {A B} (m : M A) (k : A -> M B) : M B :=
  fun s => match m s with Some (x, s') => k x s' | None => None end.
Definition die {A} : M A := fun _ => None.
Definition gets {A} (f : cg -> A) : M A := fun s => Some (f s, s).
Definition modify (f : cg -> cg) : M unit := fun s => Some (tt, f s).

Declare Scope cg_scope.
Notation "'let*' x ':=' m 'in' k" := (bind m (fun x => k))
  (at level 200, x name, m at level 100, k at level 200) : cg_scope.
Notation "m ;; k" := (bind m (fun _ => k)) (at level 100, right associativity) : cg_scope.
Open Scope cg_scope.

Definition set_text (s : cg) (t : list As.statement) : cg :=
  {| labels := labels s; text := t; module := module s; function_name := function_name s;
     arguments := arguments s; scope := scope s; max_size := max_size s |}.
Definition set_labels (s : cg) (l : gmap string nat) : cg :=
  {| labels := l; text := text s; module := module s; function_name := function_name s;
     arguments := arguments s; scope := scope s; max_size := max_size s |}.
Definition set_scope (s : cg) (sc : list environment) : cg :=
  {| labels := labels s; text := text s; module := module s; function_name := function_name s;
     arguments := arguments s; scope := sc; max_size := max_size s |}.
Definition set_max_size (s : cg) (m : Z) : cg :=
  {| labels := labels s; text := text s; module := module s; function_name := function_name s;
     arguments := arguments s; scope := scope s; max_size := m |}.

(** [module->context->text.push_back(...)] *)
Definition emit (x : As.statement) : M unit := modify (fun s => set_text s (text s ++ [x])).

(** [context::label]: [int id = labels[name]++; return name + id;] *)
Definition label (n : string) : M string :=
  fun s =>
    let id := default 0%nat (labels s !! n) in
    Some ((n +:+ to_string id)%string, set_labels s (<[n := S id]> (labels s))).

Inductive variable_kind :=
| not_found | global_constant | global_variable | local_constant
| local_variable | argument.

Fixpoint lookup_scope (sc : list environment) (n : string) : option variable_kind :=
  match sc with
  | [] => None
  | e :: sc' =>
      if decide (is_Some (env_variables e !! n)) then Some local_variable
      else if decide (is_Some (env_constants e !! n)) then Some local_constant
      else lookup_scope sc' n
  end.

(** [function_context::lookup] *)
Definition lookup (s : cg) (n : string) : variable_kind :=
  if decide (n ∈ arguments s) then argument else
  match lookup_scope (scope s) n with
  | Some k => k
  | None =>
      let m := module s in
      if decide (n ∈ variables m) then global_variable
      else if decide (is_Some (module_constants m !! n)) then global_constant
      else if decide (n ∈ imported_variables m) then global_variable
      else if decide (is_Some (imported_constants m !! n)) then global_constant
      else not_found
  end.

(** [function_context::has_local] *)
Definition has_local (s : cg) (n : string) : bool :=
  match lookup s n with
  | local_variable | local_constant => true
  | _ => false
  end.

Definition address_of (n : string) : As.output_param :=
  {| As.op_label := None; As.op_output := As.out_address (As.name n) |}.
Definition imm (i : As.immediate) : As.input_param :=
  {| As.ip_label := None; As.ip_input := As.in_immediate i |}.
Definition zero : As.input_param := imm (As.literal 0).
Definition calc (a b : As.input_param) (o : As.output_param) : As.calculation :=
  {| As.ca := a; As.cb := b; As.cout := o |}.

Fixpoint local_slot (sc : list environment) (n : string) : option Z :=
  match sc with
  | [] => None
  | e :: sc' => match env_variables e !! n with Some j => Some j | None => local_slot sc' n end
  end.

(** [function_context::get_local_variable] *)
Definition get_local_variable (n : string) : M As.output_param :=
  fun s =>
    if decide (n ∈ arguments s) then
      Some (address_of ("arg_" +:+ function_name s +:+ "_" +:+ n), s)
    else match local_slot (scope s) n with
         | Some j =>
             Some (address_of ("lv_" +:+ function_name s +:+ "_" +:+ to_string (Z.to_nat j)), s)
         | None => None
         end.

Fixpoint scope_constant (sc : list environment) (n : string) : option As.immediate :=
  match sc with
  | [] => None
  | e :: sc' => match env_constants e !! n with Some v => Some v | None => scope_constant sc' n end
  end.

(** [function_context::get_constant] ([.at] throws when absent). *)
Definition get_constant (n : string) : M As.immediate :=
  fun s =>
    match scope_constant (scope s) n with
    | Some v => Some (v, s)
    | None =>
        match module_constants (module s) !! n with
        | Some v => Some (v, s)
        | None => match imported_constants (module s) !! n with
                  | Some v => Some (v, s)
                  | None => None
                  end
        end
    end.

(** [gen_addr(const name&)] *)
Definition gen_addr_name (n : string) : M As.output_param :=
  let* k := gets (fun s => lookup s n) in
  match k with
  | not_found | global_constant | local_constant => die
  | global_variable => ret (address_of ("gv_" +:+ n))
  | argument =>
      let* f := gets function_name in ret (address_of ("arg_" +:+ f +:+ "_" +:+ n))
  | local_variable => get_local_variable n
  end.

(** [gen_expr(const name&)] *)
Definition gen_expr_name (n : string) : M As.input_param :=
  let* k := gets (fun s => lookup s n) in
  match k with
  | not_found => die
  | global_constant | local_constant => let* v := get_constant n in ret (imm v)
  | global_variable => ret (As.input_of_output (address_of ("gv_" +:+ n)))
  | argument =>
      let* f := gets function_name in
      ret (As.input_of_output (address_of ("arg_" +:+ f +:+ "_" +:+ n)))
  | local_variable => let* o := get_local_variable n in ret (As.input_of_output o)
  end.

(** [gen_addr(const read&)], given the code for the address. *)
Definition gen_addr_read (value : M As.input_param) : M As.output_param :=
  let* v := value in
  let* l := label "read" in
  emit (As.instr (As.Add (calc zero v (address_of l)))) ;;
  ret {| As.op_label := Some l; As.op_output := As.out_address (As.literal 0) |}.

(** A binary operation: both operands, then one instruction whose
    output cell is labelled [result]. *)
Definition gen_binary (prefix : string) (mk : As.calculation -> As.instruction)
    (l r : M As.input_param) : M As.input_param :=
  let* a := l in
  let* b := r in
  let* result := label prefix in
  emit (As.instr (mk (calc a b (address_of result)))) ;;
  ret {| As.ip_label := Some result; As.ip_input := As.in_immediate (As.literal 0) |}.

(** [gen_expr]; [sub] is lowered as [left + right * -1]. *)
Fixpoint gen_expr (e : expression) : M As.input_param :=
  match e with
  | e_literal x => ret (imm (As.literal x))
  | e_name n => gen_expr_name n
  | e_add l r => gen_binary "add" As.Add (gen_expr l) (gen_expr r)
  | e_sub l r =>
      gen_binary "add" As.Add (gen_expr l)
        (gen_binary "mul" As.Mul (gen_expr r) (ret (imm (As.literal (-1)))))
  | e_mul l r => gen_binary "mul" As.Mul (gen_expr l) (gen_expr r)
  | e_less_than l r => gen_binary "lt" As.LessThan (gen_expr l) (gen_expr r)
  | e_equals l r => gen_binary "eq" As.Equals (gen_expr l) (gen_expr r)
  | e_input =>
      let* result := label "input" in
      emit (As.instr (As.Input (address_of result))) ;;
      ret {| As.ip_label := Some result; As.ip_input := As.in_immediate (As.literal 0) |}
  | e_read a => let* o := gen_addr_read (gen_expr a) in ret (As.input_of_output o)
  end.

(** [gen_addr(const expression&)]: only names and reads are lvalues. *)
Definition gen_addr (e : expression) : M As.output_param :=
  match e with
  | e_name n => gen_addr_name n
  | e_read a => gen_addr_read (gen_expr a)
  | _ => die
  end.

(** Constant folding of [function_context::eval_expr]. *)
Definition fold_literals (f : Z -> Z -> Z) (l r : M As.immediate) : M As.immediate :=
  let* x := l in
  let* y := r in
  match x, y with
  | As.literal a, As.literal b => ret (As.literal (f a b))
  | _, _ => die
  end.

Fixpoint eval_expr (e : expression) : M As.immediate :=
  match e with
  | e_literal x => ret (As.literal x)
  | e_name n => get_constant n
  | e_add l r => fold_literals Word.add (eval_expr l) (eval_expr r)
  | e_sub l r => fold_literals (fun a b => Word.wrap (a - b)) (eval_expr l) (eval_expr r)
  | e_mul l r => fold_literals Word.mul (eval_expr l) (eval_expr r)
  | _ => die
  end.

(** [push_scope]: a frame starting at the current size, with the loop
    labels of the current one. *)
Definition push_scope : M unit :=
  modify (fun s =>
    match scope s with
    | cur :: _ =>
        set_scope s ({| size := size cur; env_variables := ∅; env_constants := ∅;
                        break_label := break_label cur;
                        continue_label := continue_label cur |} :: scope s)
    | [] => s
    end).

Definition pop_scope : M unit :=
  modify (fun s => set_scope s (tail (scope s))).

Definition update_current (f : environment -> environment) : M unit :=
  modify (fun s =>
    match scope s with
    | cur :: rest => set_scope s (f cur :: rest)
    | [] => s
    end).

Definition current : M (option environment) := gets (fun s => head (scope s)).

(** [std::map::emplace]: inserts only an absent key. *)
Definition emplace {V} (m : gmap string V) (k : string) (v : V) : gmap string V :=
  match m !! k with Some _ => m | None => <[k := v]> m end.

Definition bump_max_size : M unit :=
  modify (fun s =>
    match scope s with
    | cur :: _ => if max_size s <? size cur then set_max_size s (size cur) else s
    | [] => s
    end).

(** [define_scalar] *)
Definition define_scalar (n : string) : M unit :=
  update_current (fun cur =>
    {| size := size cur + 1; env_variables := emplace (env_variables cur) n (size cur);
       env_constants := env_constants cur; break_label := break_label cur;
       continue_label := continue_label cur |}) ;;
  bump_max_size.

(** [define_array] *)
Definition define_array (n : string) (count : Z) : M unit :=
  let* f := gets function_name in
  update_current (fun cur =>
    {| size := size cur + count; env_variables := env_variables cur;
       env_constants := emplace (env_constants cur) n
                          (As.name ("lv_" +:+ f +:+ "_" +:+ to_string (Z.to_nat (size cur))));
       break_label := break_label cur; continue_label := continue_label cur |}) ;;
  bump_max_size.

(** [define_constant] *)
Definition define_constant (n : string) (v : As.immediate) : M unit :=
  update_current (fun cur =>
    {| size := size cur; env_variables := env_variables cur;
       env_constants := emplace (env_constants cur) n v;
       break_label := break_label cur; continue_label := continue_label cur |}).

Definition set_loop_labels (b c : string) : M unit :=
  update_current (fun cur =>
    {| size := size cur; env_variables := env_variables cur;
       env_constants := env_constants cur;
       break_label := Some b; continue_label := Some c |}).

Definition check_not_local (n : string) : M unit :=
  let* b := gets (fun s => has_local s n) in if b then die else ret tt.

Definition jz (c t : As.input_param) : As.statement :=
  As.instr (As.JumpIfFalse {| As.condition := c; As.target := t |}).
Definition jnz (c t : As.input_param) : As.statement :=
  As.instr (As.JumpIfTrue {| As.condition := c; As.target := t |}).

(** [function_context::gen_stmt]; the inner [fix] is [gen_stmts]
    without its [push_scope]/[pop_scope]. *)
Fixpoint gen_stmt (st : statement) : M unit :=
  let gen_list := fix go (l : list statement) : M unit :=
    match l with [] => ret tt | x :: xs => gen_stmt x ;; go xs end in
  let gen_stmts l := push_scope ;; gen_list l ;; pop_scope in
  match st with
  | constant n e =>
      check_not_local n ;;
      let* v := eval_expr e in define_constant n v
  | declare_scalar n => check_not_local n ;; define_scalar n
  | declare_array n e =>
      check_not_local n ;;
      let* v := eval_expr e in
      match v with As.literal k => define_array n k | As.name _ => die end
  | assign l r =>
      let* value := gen_expr r in
      let* address := gen_addr l in
      emit (As.instr (As.Add (calc zero value address)))
  | add_assign l r =>
      let* value := gen_expr r in
      let* address := gen_addr l in
      emit (As.instr (As.Add (calc (As.input_of_output address) value
             {| As.op_label := None; As.op_output := As.op_output address |})))
  | if_statement c t e =>
      let* condition := gen_expr c in
      let* end_if := label "endif" in
      let* else_branch := match e with [] => ret end_if | _ => label "else" end in
      emit (jz condition (imm (As.name else_branch))) ;;
      gen_stmts t ;;
      match e with
      | [] => ret tt
      | _ => emit (jz zero (imm (As.name end_if))) ;;
             emit (As.label else_branch) ;;
             gen_stmts e
      end ;;
      emit (As.label end_if)
  | while_statement c body =>
      push_scope ;;
      let* while_start := label "whilestart" in
      let* while_cond := label "whilecond" in
      let* while_end := label "whileend" in
      set_loop_labels while_end while_cond ;;
      emit (jz zero (imm (As.name while_cond))) ;;
      emit (As.label while_start) ;;
      gen_stmts body ;;
      emit (As.label while_cond) ;;
      let* condition := gen_expr c in
      emit (jnz condition (imm (As.name while_start))) ;;
      emit (As.label while_end) ;;
      pop_scope
  | output_statement e =>
      let* value := gen_expr e in emit (As.instr (As.Output value))
  | return_statement e =>
      let* output_label := label "output" in
      let* f := gets function_name in
      emit (As.instr (As.Add (calc zero
             (As.input_of_output (address_of ("func_" +:+ f +:+ "_output")))
             (address_of output_label)))) ;;
      let* value := gen_expr e in
      emit (As.instr (As.Add (calc zero value
             {| As.op_label := Some output_label;
                As.op_output := As.out_address (As.literal 0) |}))) ;;
      emit (jz zero (As.input_of_output (address_of ("func_" +:+ f +:+ "_return"))))
  | break_statement =>
      let* cur := current in
      match cur with
      | Some {| break_label := Some b |} => emit (jz zero (imm (As.name b)))
      | _ => die
      end
  | continue_statement =>
      let* cur := current in
      match cur with
      | Some {| continue_label := Some c |} => emit (jz zero (imm (As.name c)))
      | _ => die
      end
  | halt_statement => emit (As.instr As.Halt)
  end.

Fixpoint gen_list (l : list statement) : M unit :=
  match l with [] => ret tt | x :: xs => gen_stmt x ;; gen_list xs end.

(** [function_context::gen_stmts] *)
Definition gen_stmts (l : list statement) : M unit :=
  push_scope ;; gen_list l ;; pop_scope.

End Codegen.

(* ------------------------------------------------------------------ *)
(** ** Module ordering ([dependency_order]) *)

Module Link.

(** A parsed module: its path (the key of the [std::map]) and its
    [import] statements, each a dotted name. *)
Record module := { mod_name : string; imports : list (list string) }.

Section Order.

(** [import.resolve(module.context())]: the path an import of a module
    designates (it depends only on the module and the import). *)
Variable resolve : module -> list string -> string.

Definition dependencies (m : module) : list string := map (resolve m) (imports m).

(** [modules.at(k)] *)
Fixpoint lookup (modules : list (string * module)) (k : string) : option module :=
  match modules with
  | [] => None
  | (k', m) :: ms => if String.eqb k' k then Some m else lookup ms k
  end.

(** One sweep of [for (auto i = outstanding.begin(); ...)]: [kept] are
    the outstanding modules already passed over, [rest] the ones still
    ahead; [outstanding] is [kept ++ rest] at every point.  [None] is
    [modules.at] throwing. *)
Fixpoint sweep (modules : list (string * module)) (kept rest output : list string)
    : option (list string * list string) :=
  match rest with
  | [] => Some (kept, output)
  | k :: rest' =>
      m ← lookup modules k;
      if existsb (fun d => bool_decide (d ∈ kept ++ k :: rest')) (dependencies m)
      then sweep modules (kept ++ [k]) rest' output
      else sweep modules kept rest' (output ++ [k])
  end.

(** [while (!outstanding.empty())], for at most [fuel] sweeps; [None]
    also when the fuel runs out. *)
Fixpoint order_loop (fuel : nat) (modules : list (string * module))
    (outstanding output : list string) : option (list string) :=
  match outstanding with
  | [] => Some output
  | _ =>
      match fuel with
      | O => None
      | S f =>
          '(kept, output') ← sweep modules [] outstanding output;
          order_loop f modules kept output'
      end
  end.

(** [std::vector<std::string> dependency_order(modules)]; the keys are
    iterated in the map's order. *)
Definition dependency_order (fuel : nat) (modules : list (string * module))
    : option (list string) :=
  order_loop fuel modules (map fst modules) [].

End Order.

End Link.

(* ------------------------------------------------------------------ *)
(** ** Vocabulary of the specification, used to state the properties *)

Module Spec.

(** The operands of an instruction in operand order, with their modes. *)
Definition in_imm (i : As.input_param) : As.immediate :=
  match As.ip_input i with As.in_address v | As.in_immediate v | As.in_relative v => v end.
Definition out_imm (o : As.output_param) : As.immediate :=
  match As.op_output o with As.out_address v | As.out_relative v => v end.

Definition operands (i : As.instruction) : list (As.immediate * Z) :=
  match i with
  | As.Literal _ | As.Halt => []
  | As.Add c | As.Mul c | As.LessThan c | As.Equals c =>
      [(in_imm (As.ca c), As.mode_in (As.ca c)); (in_imm (As.cb c), As.mode_in (As.cb c));
       (out_imm (As.cout c), As.mode_out (As.cout c))]
  | As.Input o => [(out_imm o, As.mode_out o)]
  | As.Output x => [(in_imm x, As.mode_in x)]
  | As.JumpIfTrue j | As.JumpIfFalse j =>
      [(in_imm (As.condition j), As.mode_in (As.condition j));
       (in_imm (As.target j), As.mode_in (As.target j))]
  | As.AdjustRelativeBase a => [(in_imm a, As.mode_in a)]
  end.

Definition is_literal (x : As.immediate) : Prop := exists v, x = As.literal v.

(** All names already replaced by literals. *)
Definition resolved (i : As.instruction) : Prop := Forall (fun p => is_literal (fst p)) (operands i).

Definition numeric (x : As.immediate) : Z := match x with As.literal v => v | As.name _ => 0 end.

(** The opcode numbers of section 4.2; a [Literal] is its own value. *)
Definition opcode_number (i : As.instruction) : Z :=
  match i with
  | As.Literal v => v
  | As.Add _ => 1 | As.Mul _ => 2 | As.Input _ => 3 | As.Output _ => 4
  | As.JumpIfTrue _ => 5 | As.JumpIfFalse _ => 6 | As.LessThan _ => 7
  | As.Equals _ => 8 | As.AdjustRelativeBase _ => 9 | As.Halt => 99
  end.

(** The sizes of the table of section 3.1. *)
Definition table_size (i : As.instruction) : nat :=
  match i with
  | As.Literal _ | As.Halt => 1
  | As.Add _ | As.Mul _ | As.LessThan _ | As.Equals _ => 4
  | As.JumpIfTrue _ | As.JumpIfFalse _ => 3
  | As.Input _ | As.Output _ | As.AdjustRelativeBase _ => 2
  end.

Definition mode_digit (i : As.instruction) (k : nat) : Z :=
  default 0 (snd <$> operands i !! k).

Definition head (i : As.instruction) : Z :=
  opcode_number i + 100 * mode_digit i 0 + 1000 * mode_digit i 1 + 10000 * mode_digit i 2.

(** The decimal reading of a head value: "DDCBA00+Op". *)
Definition known_opcode (c : Z) : bool :=
  bool_decide (c ∈ [1; 2; 3; 4; 5; 6; 7; 8; 9; 99]).

Definition writes_immediate (c a d : Z) : bool :=
  (bool_decide (c ∈ [1; 2; 7; 8]) && (d =? 1)) || ((c =? 3) && (a =? 1)).

Definition valid_head (x : Z) : bool :=
  let c := x mod 100 in
  let a := x / 100 mod 10 in
  let b := x / 1000 mod 10 in
  let d := x / 10000 mod 10 in
  (0 <=? x) && (x <? Intcode.table_size) && known_opcode c
  && (a <=? 2) && (b <=? 2) && (d <=? 2) && (x / 100000 =? 0)
  && negb (writes_immediate c a d).

Definition decoded (x : Z) : Intcode.op :=
  {| Intcode.code := Intcode.opcode_of (x mod 100);
     Intcode.param0 := Intcode.mode_of (x / 100 mod 10);
     Intcode.param1 := Intcode.mode_of (x / 1000 mod 10);
     Intcode.param2 := Intcode.mode_of (x / 10000 mod 10) |}.

#[global] Instance mode_eq_dec : EqDecision Intcode.mode.
Proof. solve_decision. Defined.
#[global] Instance opcode_eq_dec : EqDecision Intcode.opcode.
Proof. solve_decision. Defined.
#[global] Instance op_eq_dec : EqDecision Intcode.op.
Proof. solve_decision. Defined.

(** The decode table compared entry by entry with the decimal reading. *)
Definition agrees (x : Z) : bool :=
  bool_decide (Intcode.parse_op x = if valid_head x then decoded x else Intcode.default_op).

Fixpoint agrees_from (n : nat) (x : Z) : bool :=
  match n with
  | O => true
  | S n' => agrees x && agrees_from n' (x + 1)
  end.

End Spec.

(** The comma-separated decimal input of section 5 ([program::load]). *)
Module LoadSpec.

(** A decimal token: an optional minus sign and its digit characters. *)
Record token := { neg : bool; digits : list Ascii.ascii }.

Definition token_text (t : token) : list Ascii.ascii :=
  (if neg t then [Load.minus_sign] else []) ++ digits t.

Definition magnitude (ds : list Ascii.ascii) : Z :=
  fold_left (fun a c => 10 * a + Load.digit_value c) ds 0.

Definition token_value (t : token) : Z :=
  if neg t then - magnitude (digits t) else magnitude (digits t).

(** At least one digit, only digits, and a value that fits in [int64_t]. *)
Definition valid_token (t : token) : Prop :=
  digits t <> [] /\ Forall (fun c => Load.is_digit c = true) (digits t)
  /\ Word.in_range (token_value t) = true.

Definition comma_token (t : token) : list Ascii.ascii := Load.comma :: token_text t.

(** The text [t0,t1,...,tk] followed by a newline. *)
Definition text (t : token) (ts : list token) : list Ascii.ascii :=
  token_text t ++ concat (map comma_token ts) ++ [Load.newline].

(** A character that cannot start a token, even after whitespace. *)
Definition bad_start (c : Ascii.ascii) : Prop :=
  Load.is_space c = false /\ Load.is_digit c = false /\ c <> Load.minus_sign.

(** Malformed text where a value is expected: a character that cannot
    start a number, a number outside [int64_t], or a lone minus sign. *)
Inductive malformed : list Ascii.ascii -> Prop :=
| bad_char (c : Ascii.ascii) (r : list Ascii.ascii) :
    bad_start c -> malformed (c :: r)
| out_of_range (t : token) (r : list Ascii.ascii) :
    digits t <> [] -> Forall (fun c => Load.is_digit c = true) (digits t) ->
    Word.in_range (token_value t) = false -> Load.starts_with_digit r = false ->
    malformed (token_text t ++ r)
| lone_minus (r : list Ascii.ascii) :
    Load.starts_with_digit r = false -> malformed (Load.minus_sign :: r).

End LoadSpec.

(** The properties of a module ordering (section 4, link stage). *)
Module LinkSpec.

Section Props.

Variable resolve : Link.module -> list string -> string.
Variable modules : list (string * Link.module).

Definition keys : list string := map fst modules.

(** Every dependency of [k] that is a module is placed before [k]. *)
Definition ready_after (before : list string) (k : string) : Prop :=
  forall m d, Link.lookup modules k = Some m -> In d (Link.dependencies resolve m) ->
              In d keys -> In d before.

Definition topological (out : list string) : Prop :=
  forall l1 k l2, out = l1 ++ k :: l2 -> ready_after l1 k.

(** An acyclic import graph: a rank that decreases along every import
    between modules. *)
Definition acyclic (rank : string -> nat) : Prop :=
  forall k m d, Link.lookup modules k = Some m -> In d (Link.dependencies resolve m) ->
                In d keys -> (rank d < rank k)%nat.

(** A cycle: a nonempty set of modules each importing one of the set. *)
Definition cyclic (C : list string) : Prop :=
  C <> [] /\ (forall k, In k C -> In k keys) /\
  (forall k m, In k C -> Link.lookup modules k = Some m ->
               exists d, In d (Link.dependencies resolve m) /\ In d C).

End Props.

End LinkSpec.

(** Concrete compilation contexts used by the examples below. *)
Module Scenario.

(** A module with one global variable [p] and the imported constant
    [heapstart]. *)
Definition mctx : Codegen.module_context :=
  {| Codegen.imported_variables := [];
     Codegen.imported_constants := {[ "heapstart" := As.name "heapstart" ]};
     Codegen.variables := ["p"]; Codegen.module_constants := ∅ |}.

(** The generator state at the start of the body of [main]. *)
Definition init_cg : Codegen.cg :=
  {| Codegen.labels := ∅; Codegen.text := []; Codegen.module := mctx;
     Codegen.function_name := "main"; Codegen.arguments := [];
     Codegen.scope := [{| Codegen.size := 0; Codegen.env_variables := ∅;
                          Codegen.env_constants := ∅; Codegen.break_label := None;
                          Codegen.continue_label := None |}];
     Codegen.max_size := 0 |}.

Definition gen_text (m : Codegen.M unit) : option (list As.statement) :=
  option_map (fun r => Codegen.text (snd r)) (m init_cg).

(** The data of the module: [p] holds 10, and cell 10 holds 40. *)
Definition data : list As.statement :=
  [As.instr As.Halt; As.label "gv_p"; As.dir (As.integer (As.literal 10));
   As.label "target"; As.dir (As.integer (As.literal 40))].

(** Generate one statement, assemble it before [data], and run it. *)
Definition run_statement (st : Compiler.statement) : option Intcode.outcome :=
  body ← gen_text (Codegen.gen_stmt st);
  img ← As.encode (body ++ data);
  Some (Intcode.resume 100 (Intcode.make_program img)).

Definition cell (o : option Intcode.outcome) (i : Z) : option Z :=
  match o with
  | Some (Intcode.Resumed p) => Some (Intcode.read (Intcode.memory p) i)
  | _ => None
  end.

Definition deref_p : Compiler.expression := Compiler.e_read (Compiler.e_name "p").

(** [import_statement::resolve] for a module in the top directory, whose
    [context()] is the empty path: the parts joined by [/], then [.is]. *)
Definition flat_resolve (m : Link.module) (parts : list string) : string :=
  String.concat "/" parts +:+ ".is".

(** [a.is] imports [b] and [b.is] imports [a]. *)
Definition cycle_ab : list (string * Link.module) :=
  [("a.is", {| Link.mod_name := "a.is"; Link.imports := [["b"]] |});
   ("b.is", {| Link.mod_name := "b.is"; Link.imports := [["a"]] |})].

(** [a.is] imports [b]; [b.is] imports nothing. *)
Definition chain_ab : list (string * Link.module) :=
  [("a.is", {| Link.mod_name := "a.is"; Link.imports := [["b"]] |});
   ("b.is", {| Link.mod_name := "b.is"; Link.imports := [] |})].

Definition chain_rank (k : string) : nat := if String.eqb k "a.is" then 1 else 0.

(** An instruction [add 2, 3, x] whose output operand carries the label [y]. *)
Definition add_x : As.instruction :=
  As.Add {| As.ca := {| As.ip_label := None; As.ip_input := As.in_immediate (As.literal 2) |};
            As.cb := {| As.ip_label := None; As.ip_input := As.in_immediate (As.literal 3) |};
            As.cout := {| As.op_label := Some "y"; As.op_output := As.out_address (As.name "x") |} |}.

End Scenario.

(* ------------------------------------------------------------------ *)
(** ** More of [module intcode]: [op_size], [memory::decode] and
    [program::run] *)

Module Disasm.
Import Intcode.

(** [constexpr int op_size(opcode o)] *)
Definition op_size (o : opcode) : Z :=
  match o with
  | illegal => -1
  | add | mul | less_than | equals => 4
  | jump_if_true | jump_if_false => 3
  | input | output | adjust_relative_base => 2
  | halt => 1
  end.

(** [mode(v)] for the digit [v] extracted by [decode]: a value outside
    the enumerators matches no [case] of the [switch]es below (falling
    off the end of the function), which is [None] here. *)
Definition mode_value (v : Z) : option mode :=
  if v =? 0 then Some position
  else if v =? 1 then Some immediate
  else if v =? 2 then Some relative
  else None.

(** [memory::decode_input] *)
Definition decode_input (m : mode) (arg : Z) : As.input_param :=
  match m with
  | position => {| As.ip_label := None; As.ip_input := As.in_address (As.literal arg) |}
  | immediate => {| As.ip_label := None; As.ip_input := As.in_immediate (As.literal arg) |}
  | relative => {| As.ip_label := None; As.ip_input := As.in_relative (As.literal arg) |}
  end.

(** [memory::decode_output]; [return {}] is the value-initialised
    [output_param]: no label, [address{literal{0}}]. *)
Definition decode_output (m : mode) (arg : Z) : As.output_param :=
  match m with
  | position => {| As.op_label := None; As.op_output := As.out_address (As.literal arg) |}
  | immediate => {| As.op_label := None; As.op_output := As.out_address (As.literal 0) |}
  | relative => {| As.op_label := None; As.op_output := As.out_relative (As.literal arg) |}
  end.

Definition decode_calculation (mem : gmap Z Z) (pc a b c : Z) : option As.calculation :=
  ma ← mode_value a; mb ← mode_value b; mc ← mode_value c;
  Some {| As.ca := decode_input ma (read mem (Word.add pc 1));
          As.cb := decode_input mb (read mem (Word.add pc 2));
          As.cout := decode_output mc (read mem (Word.add pc 3)) |}.

Definition decode_jump (mem : gmap Z Z) (pc cd tg : Z) : option As.jump :=
  mc ← mode_value cd; mt ← mode_value tg;
  Some {| As.condition := decode_input mc (read mem (Word.add pc 1));
          As.target := decode_input mt (read mem (Word.add pc 2)) |}.

(** [as::instruction memory::decode(std::int64_t pc)] (the [--debug]
    disassembler); [/] and [%] truncate toward zero. *)
Definition decode (mem : gmap Z Z) (pc : Z) : option As.instruction :=
  let x := read mem pc in
  let a := Z.rem (Z.quot x 100) 10 in
  let b := Z.rem (Z.quot x 1000) 10 in
  let c := Z.rem (Z.quot x 10000) 10 in
  match opcode_of (Z.rem x 100) with
  | add => cl ← decode_calculation mem pc a b c; Some (As.Add cl)
  | mul => cl ← decode_calculation mem pc a b c; Some (As.Mul cl)
  | input => ma ← mode_value a; Some (As.Input (decode_output ma (read mem (Word.add pc 1))))
  | output => ma ← mode_value a; Some (As.Output (decode_input ma (read mem (Word.add pc 1))))
  | jump_if_true => j ← decode_jump mem pc a b; Some (As.JumpIfTrue j)
  | jump_if_false => j ← decode_jump mem pc a b; Some (As.JumpIfFalse j)
  | less_than => cl ← decode_calculation mem pc a b c; Some (As.LessThan cl)
  | equals => cl ← decode_calculation mem pc a b c; Some (As.Equals cl)
  | adjust_relative_base =>
      ma ← mode_value a; Some (As.AdjustRelativeBase (decode_input ma (read mem (Word.add pc 1))))
  | halt => Some As.Halt
  | illegal => Some (As.Literal x)
  end.

(** The VM's reading of an assembler operand mode. *)
Definition in_mode (i : As.input_param) : mode :=
  match As.ip_input i with
  | As.in_address _ => position | As.in_immediate _ => immediate | As.in_relative _ => relative
  end.
Definition out_mode (o : As.output_param) : mode :=
  match As.op_output o with As.out_address _ => position | As.out_relative _ => relative end.

(** The [op] the VM should decode from the head of an assembled
    instruction (unused parameter modes are [position]). *)
Definition expected_op (i : As.instruction) : op :=
  let mk c m0 m1 m2 := {| code := c; param0 := m0; param1 := m1; param2 := m2 |} in
  match i with
  | As.Literal _ => default_op
  | As.Add c => mk add (in_mode (As.ca c)) (in_mode (As.cb c)) (out_mode (As.cout c))
  | As.Mul c => mk mul (in_mode (As.ca c)) (in_mode (As.cb c)) (out_mode (As.cout c))
  | As.LessThan c => mk less_than (in_mode (As.ca c)) (in_mode (As.cb c)) (out_mode (As.cout c))
  | As.Equals c => mk equals (in_mode (As.ca c)) (in_mode (As.cb c)) (out_mode (As.cout c))
  | As.Input o => mk input (out_mode o) position position
  | As.Output x => mk output (in_mode x) position position
  | As.JumpIfTrue j => mk jump_if_true (in_mode (As.condition j)) (in_mode (As.target j)) position
  | As.JumpIfFalse j => mk jump_if_false (in_mode (As.condition j)) (in_mode (As.target j)) position
  | As.AdjustRelativeBase a => mk adjust_relative_base (in_mode a) position position
  | As.Halt => mk halt position position position
  end.

(** An instruction with the labels of its operands dropped. *)
Definition unlabel_in (i : As.input_param) : As.input_param :=
  {| As.ip_label := None; As.ip_input := As.ip_input i |}.
Definition unlabel_out (o : As.output_param) : As.output_param :=
  {| As.op_label := None; As.op_output := As.op_output o |}.
Definition unlabel_calc (c : As.calculation) : As.calculation :=
  {| As.ca := unlabel_in (As.ca c); As.cb := unlabel_in (As.cb c);
     As.cout := unlabel_out (As.cout c) |}.
Definition unlabel_jump (j : As.jump) : As.jump :=
  {| As.condition := unlabel_in (As.condition j); As.target := unlabel_in (As.target j) |}.
Definition unlabel (i : As.instruction) : As.instruction :=
  match i with
  | As.Literal _ | As.Halt => i
  | As.Add c => As.Add (unlabel_calc c)
  | As.Mul c => As.Mul (unlabel_calc c)
  | As.LessThan c => As.LessThan (unlabel_calc c)
  | As.Equals c => As.Equals (unlabel_calc c)
  | As.Input o => As.Input (unlabel_out o)
  | As.Output x => As.Output (unlabel_in x)
  | As.JumpIfTrue j => As.JumpIfTrue (unlabel_jump j)
  | As.JumpIfFalse j => As.JumpIfFalse (unlabel_jump j)
  | As.AdjustRelativeBase a => As.AdjustRelativeBase (unlabel_in a)
  end.

End Disasm.

Module Run.
Import Intcode.

(** [span program::run(const_span input, span output)] with an output
    buffer of [cap] cells; [outs] holds [output[0 .. output_size)].
    [fuel] bounds both the iterations of [while (true)] and each call of
    [resume()]; [None] is a failed [check] or an abort. *)
Fixpoint run (fuel : nat) (p : program) (input : list Z) (cap : nat) (outs : list Z)
    : option (list Z) :=
  match fuel with
  | O => None
  | S f =>
      match resume fuel p with
      | Resumed p' =>
          match st p' with
          | ready => run f p' input cap outs
          | waiting_for_input =>
              match input with
              | [] => None
              | x :: input' => p'' ← provide_input p' x; run f p'' input' cap outs
              end
          | output_ready =>
              if (length outs <? cap)%nat then
                '(v, p'') ← get_output p'; run f p'' input cap (outs ++ [v])
              else None
          | halted => Some outs
          end
      | Died _ | OutOfFuel => None
      end
  end.

End Run.

(* ------------------------------------------------------------------ *)
(** ** The layout of an assembled image *)

Module Layout.

(** The number of cells a statement occupies: the amount by which the
    loop of [environment::environment] advances [offset]. *)
Definition stmt_size (s : As.statement) : Z :=
  match s with
  | As.label _ => 0
  | As.instr i => As.size i
  | As.dir (As.define _ _) => 0
  | As.dir (As.integer _) => 1
  | As.dir (As.ascii a) => Z.of_nat (String.length a) + 1
  end.

Definition image_size (ss : list As.statement) : Z :=
  fold_right (fun s acc => stmt_size s + acc) 0 ss.

(** The number a string of decimal digits denotes, read from the left
    after [a]. *)
Fixpoint decimal_value (a : nat) (s : string) : nat :=
  match s with
  | String.EmptyString => a
  | String.String c s' => decimal_value (a * 10 + (Ascii.nat_of_ascii c - 48)) s'
  end.

End Layout.

(* ------------------------------------------------------------------ *)
(** ** What code generation keeps *)

Module GenInv.
Import Codegen.

(** The value of [labels[n]] ([std::map::operator[]] reads a missing key
    as 0). *)
Definition counter (s : cg) (n : string) : nat := default 0%nat (labels s !! n).

(** [s'] grows from [s]: no label counter goes down, text is only
    appended, and the function being generated is the same. *)
Definition grows (s s' : cg) : Prop :=
  (forall n, (counter s n <= counter s' n)%nat) /\
  (exists t, text s' = text s ++ t) /\
  function_name s' = function_name s /\ arguments s' = arguments s /\
  module s' = module s.

(** ... and only the innermost frame of [scope] may have changed. *)
Definition keeps (s s' : cg) : Prop :=
  grows s s' /\ tail (scope s') = tail (scope s) /\ length (scope s') = length (scope s).

Definition ok {A} (m : M A) : Prop :=
  forall s x s', m s = Some (x, s') -> keeps s s'.

(** A computation that ends by popping the frame it runs in. *)
Definition ok_pop {A} (m : M A) : Prop :=
  forall s x s', m s = Some (x, s') -> grows s s' /\ scope s' = tail (scope s).

End GenInv.

(* ------------------------------------------------------------------ *)
(** ** Module-level code generation ([struct module_context],
    [context::finish]) *)

Module Global.
Import Compiler Codegen.

(** [struct declaration] *)
Inductive declaration :=
| d_constant (name : string) (value : expression)
| d_scalar (name : string)
| d_array (name : string) (size : expression)
| d_function (name : string) (parameters : list string) (body : list statement).

(** [struct module_exports] *)
Record module_exports := {
  ex_variables : list string;
  ex_constants : gmap string As.immediate;
}.

(** The parts of [struct context] module code generation writes, and the
    [module_context] being generated. *)
Record gctx := {
  g_labels : gmap string nat;
  g_text : list As.statement;
  g_rodata : list As.statement;
  g_data : list As.statement;
  g_module : module_context;
}.

(** The constructor [module_context(context*, const module&)], given the
    exports of the imported modules ([context->modules.at(...)] of each
    import): [imported_constants] starts as [{heapstart}], and
    [std::map::insert] of a range keeps the keys already present. *)
Definition add_exports (m : module_context) (d : module_exports) : module_context :=
  {| imported_variables := imported_variables m ++ ex_variables d;
     imported_constants := imported_constants m ∪ ex_constants d;
     variables := variables m; module_constants := module_constants m |}.

Definition make_module_context (deps : list module_exports) : module_context :=
  fold_left add_exports deps
    {| imported_variables := []; imported_constants := {["heapstart" := As.name "heapstart"]};
       variables := []; module_constants := ∅ |}.

(** [module_context::has_global] *)
Definition has_global (m : module_context) (n : string) : bool :=
  bool_decide (n ∈ imported_variables m) || bool_decide (is_Some (imported_constants m !! n))
  || bool_decide (n ∈ variables m) || bool_decide (is_Some (module_constants m !! n)).

(** [module_context::eval_expr]: a name is [constants.at(name)], the
    module's own constants only. *)
Fixpoint eval_expr (m : module_context) (e : expression) : option As.immediate :=
  let fold f l r :=
    x ← eval_expr m l; y ← eval_expr m r;
    match x, y with As.literal a, As.literal b => Some (As.literal (f a b)) | _, _ => None end in
  match e with
  | e_literal x => Some (As.literal x)
  | e_name n => module_constants m !! n
  | e_add l r => fold Word.add l r
  | e_sub l r => fold (fun a b => Word.wrap (a - b)) l r
  | e_mul l r => fold Word.mul l r
  | _ => None
  end.

(** [int n = value]: the conversion of an [int64_t] to a 32-bit [int]. *)
Definition to_int (v : Z) : Z := (v + 2 ^ 31) mod 2 ^ 32 - 2 ^ 31.

Definition zero_cell : As.statement := As.dir (As.integer (As.literal 0)).

Definition set_module (g : gctx) (m : module_context) : gctx :=
  {| g_labels := g_labels g; g_text := g_text g; g_rodata := g_rodata g; g_data := g_data g;
     g_module := m |}.
Definition set_data (g : gctx) (d : list As.statement) : gctx :=
  {| g_labels := g_labels g; g_text := g_text g; g_rodata := g_rodata g; g_data := d;
     g_module := g_module g |}.

Definition with_constant (m : module_context) (n : string) (v : As.immediate) : module_context :=
  {| imported_variables := imported_variables m; imported_constants := imported_constants m;
     variables := variables m; module_constants := emplace (module_constants m) n v |}.
Definition with_variable (m : module_context) (n : string) : module_context :=
  {| imported_variables := imported_variables m; imported_constants := imported_constants m;
     variables := n :: variables m; module_constants := module_constants m |}.

(** The cells a parameter gets before the function's code. *)
Definition parameter_cells (f : string) (p : string) : list As.statement :=
  [As.label ("arg_" +:+ f +:+ "_" +:+ p); zero_cell].

Definition local_cells (f : string) (i : nat) : list As.statement :=
  [As.label ("lv_" +:+ f +:+ "_" +:+ to_string i); zero_cell].

(** [function_context f{this, d.name}] after the parameters: one frame,
    [max_size = 0]. *)
Definition function_start (g : gctx) (f : string) (ps : list string) : cg :=
  {| labels := g_labels g;
     text := g_text g ++ concat (map (parameter_cells f) ps) ++
             [As.label ("func_" +:+ f +:+ "_output"); zero_cell;
              As.label ("func_" +:+ f +:+ "_return"); zero_cell;
              As.label ("func_" +:+ f)];
     module := g_module g; function_name := f; arguments := ps;
     scope := [{| size := 0; env_variables := ∅; env_constants := ∅;
                  break_label := None; continue_label := None |}];
     max_size := 0 |}.

(** [module_context::gen_decl] *)
Definition gen_decl (d : declaration) (g : gctx) : option gctx :=
  let m := g_module g in
  match d with
  | d_constant n e =>
      if has_global m n then None else
      v ← eval_expr m e; Some (set_module g (with_constant m n v))
  | d_scalar n =>
      if has_global m n then None else
      Some (set_module (set_data g (g_data g ++ [As.label ("gv_" +:+ n); zero_cell])) (with_variable m n))
  | d_array n e =>
      if has_global m n then None else
      v ← eval_expr m e;
      match v with
      | As.literal k =>
          Some (set_module
                  (set_data g (g_data g ++ As.label ("gv_" +:+ n) ::
                               repeat zero_cell (Z.to_nat (to_int k))))
                  (with_constant m n (As.name ("gv_" +:+ n))))
      | As.name _ => None
      end
  | d_function n ps body =>
      '(_, f) ← (gen_stmts body ;; gen_stmt (return_statement (e_literal 0))) (function_start g n ps);
      Some {| g_labels := labels f; g_text := text f; g_rodata := g_rodata g;
              g_data := g_data g ++ concat (map (local_cells n) (seq 0 (Z.to_nat (max_size f))));
              g_module := with_constant m n (As.name ("func_" +:+ n)) |}
  end.

(** [module_context::gen_decls] *)
Fixpoint gen_decls (ds : list declaration) (g : gctx) : option gctx :=
  match ds with
  | [] => Some g
  | d :: ds' => g' ← gen_decl d g; gen_decls ds' g'
  end.

(** The name a declaration defines. *)
Definition decl_name (d : declaration) : string :=
  match d with d_constant n _ | d_scalar n | d_array n _ | d_function n _ _ => n end.

(** [context::finish] *)
Definition finish (g : gctx) : list As.statement :=
  g_text g ++ g_rodata g ++ g_data g ++ [As.label "heapstart"].

End Global.

Module GlobalScenario.

(** A fresh module without imports, before its first declaration. *)
Definition init_g : Global.gctx :=
  {| Global.g_labels := ∅; Global.g_text := []; Global.g_rodata := []; Global.g_data := [];
     Global.g_module := Global.make_module_context [] |}.

End GlobalScenario.

(* ================================================================== *)
(** * Properties *)

Import Intcode.

(** ** The encoder *)

Ltac destruct_params :=
  repeat match goal with
  | c : As.calculation |- _ => destruct c
  | j : As.jump |- _ => destruct j
  | p : As.input_param |- _ => destruct p
  | p : As.output_param |- _ => destruct p
  | k : As.input_kind |- _ => destruct k
  | k : As.output_kind |- _ => destruct k
  end.

(** C2: a resolved instruction encodes to [size i] cells (the sizes of the
    table), the head [opcode + 100 mode(a) + 1000 mode(b) + 10000 mode(out)]
    followed by the operand values in operand order; [Halt]'s head is 99. *)
Theorem encode_instruction_layout (i : As.instruction) :
  Spec.resolved i ->
  As.encode_instruction i = Some (Spec.head i :: map (fun p => Spec.numeric (fst p)) (Spec.operands i))
  /\ Z.of_nat (length (Spec.head i :: map (fun p => Spec.numeric (fst p)) (Spec.operands i)))
     = As.size i
  /\ length (Spec.head i :: map (fun p => Spec.numeric (fst p)) (Spec.operands i))
     = Spec.table_size i
  /\ (i = As.Halt -> Spec.head i = 99).
Proof.
  intros Hres. unfold Spec.resolved in Hres.
  destruct i; destruct_params; simpl in *;
  repeat match goal with
  | H : Forall _ (_ :: _) |- _ => inversion H; clear H; subst
  | H : Spec.is_literal _ |- _ =>
      let v := fresh "v" in let Hv := fresh "Hv" in
      destruct H as [v Hv]; cbn in Hv; subst
  end;
  unfold As.encode_instruction, As.opcode, Spec.head, Spec.mode_digit; simpl;
  (split; [f_equal; f_equal; try reflexivity; lia
          | split; [reflexivity | split; [reflexivity | intros Hh; (discriminate Hh || reflexivity)]]]).
Qed.

Lemma encode_instruction_layout_witness :
  let i := As.Add {| As.ca := {| As.ip_label := None; As.ip_input := As.in_immediate (As.literal 3) |};
                     As.cb := {| As.ip_label := None; As.ip_input := As.in_relative (As.literal 4) |};
                     As.cout := {| As.op_label := None; As.op_output := As.out_address (As.literal 7) |} |} in
  Spec.resolved i /\ As.encode_instruction i = Some [2101; 3; 4; 7].
Proof.
  intros i.
  assert (Hr : Spec.resolved i).
  { repeat constructor; eexists; reflexivity. }
  split; [exact Hr|].
  destruct (encode_instruction_layout i Hr) as [He _]. rewrite He. reflexivity.
Defined.

(** ** The virtual machine *)

Lemma parse_op_destination (x : Z) :
  ((code (parse_op x) = add \/ code (parse_op x) = mul \/
    code (parse_op x) = less_than \/ code (parse_op x) = equals) ->
   param2 (parse_op x) <> immediate)
  /\ (code (parse_op x) = input -> param0 (parse_op x) <> immediate).
Proof.
  unfold parse_op.
  repeat case_match; simpl in *; subst; split; intros; try congruence;
    intuition congruence.
Qed.

Lemma decode_destination (x : Z) (o : op) :
  decode_op x = Some o ->
  ((code o = add \/ code o = mul \/ code o = less_than \/ code o = equals) ->
   param2 o <> immediate)
  /\ (code o = input -> param0 o <> immediate).
Proof.
  unfold decode_op. case_match; intros Ho; inversion Ho; subst.
  apply parse_op_destination.
Qed.

Lemma put_address_some (p : program) (o : op) (i : nat) :
  param o i <> immediate -> exists a, put_address p o i = Some a.
Proof.
  unfold put_address. destruct (param o i); try congruence; eauto.
Qed.

Lemma calc_some (p : program) (o : op) (f : Z -> Z -> Z) :
  param2 o <> immediate ->
  exists a, put_address p o 2 = Some a /\
    calc p o f = Continue (with_pc (with_memory p (<[a := f (get p o 0) (get p o 1)]> (memory p)))
                                   (Word.add (pc p) 4)).
Proof.
  intros Hm. destruct (put_address_some p o 2 Hm) as [a Ha].
  exists a. split; [exact Ha|]. unfold calc. rewrite Ha. reflexivity.
Qed.

(** C1: once the head at [pc] decodes, [Add]/[Mul] store [get(0)+get(1)]
    resp. [get(0)*get(1)] at the destination operand and advance [pc] by 4;
    [LessThan]/[Equals] store exactly 1 if [get(0) < get(1)] resp.
    [get(0) = get(1)] and exactly 0 otherwise, advancing [pc] by 4;
    [JumpIfTrue] jumps to [get(1)] on a nonzero [get(0)] and goes to [pc+3]
    otherwise, [JumpIfFalse] the converse; [AdjustRelativeBase] adds [get(0)]
    to the relative base and advances [pc] by 2. *)
Theorem step_semantics (p : program) (o : op) :
  decode_op (read (memory p) (pc p)) = Some o ->
  let store v := exists a, put_address p o 2 = Some a /\
      step p = Continue (with_pc (with_memory p (<[a := v]> (memory p))) (Word.add (pc p) 4)) in
  (code o = add -> store (Word.add (get p o 0) (get p o 1)))
  /\ (code o = mul -> store (Word.mul (get p o 0) (get p o 1)))
  /\ (code o = less_than -> store (if get p o 0 <? get p o 1 then 1 else 0))
  /\ (code o = equals -> store (if get p o 0 =? get p o 1 then 1 else 0))
  /\ (code o = jump_if_true ->
      step p = Continue (with_pc p (if get p o 0 =? 0 then Word.add (pc p) 3 else get p o 1)))
  /\ (code o = jump_if_false ->
      step p = Continue (with_pc p (if get p o 0 =? 0 then get p o 1 else Word.add (pc p) 3)))
  /\ (code o = adjust_relative_base ->
      step p = Continue (with_pc (with_base p (Word.add (relative_base p) (get p o 0)))
                                 (Word.add (pc p) 2))).
Proof.
  intros Hd store.
  destruct (decode_destination _ _ Hd) as [Hdest _].
  unfold store, step. rewrite Hd.
  repeat split; intros Hc; rewrite Hc.
  - apply calc_some; auto.
  - apply calc_some; auto.
  - apply calc_some; auto.
  - apply calc_some; auto.
  - destruct (get p o 0 =? 0); reflexivity.
  - destruct (get p o 0 =? 0); reflexivity.
  - reflexivity.
Qed.

Lemma step_semantics_witness :
  let p := make_program [1101; 2; 3; 7; 99; 0; 0; 0] in
  decode_op (read (memory p) (pc p)) = Some (parse_op 1101) /\
  (code (parse_op 1101) = add ->
   exists a, put_address p (parse_op 1101) 2 = Some a /\
     step p = Continue (with_pc (with_memory p
       (<[a := Word.add (get p (parse_op 1101) 0) (get p (parse_op 1101) 1)]> (memory p)))
       (Word.add (pc p) 4))).
Proof.
  intros p. split.
  - vm_compute. reflexivity.
  - apply (step_semantics p (parse_op 1101)). vm_compute. reflexivity.
Defined.

Lemma table_agrees_true : Spec.agrees_from (Z.to_nat table_size) 0 = true.
Proof. exact (eq_refl true <: Spec.agrees_from (Z.to_nat table_size) 0 = true). Qed.

Lemma agrees_from_spec (n : nat) (x y : Z) :
  Spec.agrees_from n x = true -> x <= y < x + Z.of_nat n -> Spec.agrees y = true.
Proof.
  revert x. induction n as [|n IH]; intros x Ha Hy; simpl in *; [lia|].
  apply andb_true_iff in Ha. destruct Ha as [H1 H2].
  destruct (Z.eq_dec x y) as [->|Hne]; [exact H1|].
  apply (IH (x + 1)); [exact H2 | lia].
Qed.

Lemma parse_op_table (x : Z) :
  0 <= x < table_size ->
  parse_op x = if Spec.valid_head x then Spec.decoded x else default_op.
Proof.
  intros Hx.
  assert (Hn : Z.of_nat (Z.to_nat table_size) = table_size)
    by (apply Z2Nat.id; unfold table_size; lia).
  pose proof table_agrees_true as Ht.
  revert Ht Hn. generalize (Z.to_nat table_size). intros n Ht Hn.
  pose proof (agrees_from_spec n 0 x Ht ltac:(lia)) as Ha.
  unfold Spec.agrees in Ha. exact (bool_decide_eq_true_1 _ Ha).
Qed.

Lemma valid_head_range (x : Z) :
  Spec.valid_head x = true -> 0 <= x < table_size.
Proof.
  unfold Spec.valid_head. intros H.
  repeat rewrite andb_true_iff in H. destruct H as [[[[[[[H1 H2] _] _] _] _] _] _].
  apply Z.leb_le in H1. apply Z.ltb_lt in H2. lia.
Qed.

Lemma step_no_immediate_write (p : program) : step p <> Trap immediate_write.
Proof.
  unfold step. destruct (decode_op _) as [o|] eqn:Hd; [|discriminate].
  destruct (decode_destination _ _ Hd) as [Hdest Hin].
  destruct (code o) eqn:Hc; try discriminate;
    try (unfold calc; destruct (put_address_some p o 2) as [a Ha];
         [apply Hdest; auto | rewrite Ha; discriminate]).
  destruct (param0 o) eqn:Hp; try discriminate. exfalso. apply Hin; auto.
Qed.

(** C6: a head in the table's range with a known opcode, mode digits 0, 1
    or 2, no further digits and no immediate destination decodes to that
    opcode with those modes; at any other head the step traps (a failed
    check or the illegal-instruction branch), and no step ever reaches an
    immediate-destination abort. *)
Theorem decode_complete :
  (forall x, Spec.valid_head x = true -> decode_op x = Some (Spec.decoded x)
             /\ code (Spec.decoded x) <> illegal)
  /\ (forall p, Spec.valid_head (read (memory p) (pc p)) = false ->
        step p = Trap check_failed \/ step p = Trap illegal_instruction)
  /\ (forall p, step p <> Trap immediate_write).
Proof.
  split; [|split].
  - intros x Hv. pose proof (valid_head_range x Hv) as Hr.
    unfold decode_op. rewrite parse_op_table, Hv by exact Hr.
    split.
    + destruct Hr as [H1 H2]. apply Z.leb_le in H1. apply Z.ltb_lt in H2.
      rewrite H1, H2. reflexivity.
    + unfold Spec.valid_head, Spec.known_opcode in Hv.
      repeat rewrite andb_true_iff in Hv.
      destruct Hv as [[[[[[[_ _] Hk] _] _] _] _] _].
      apply bool_decide_eq_true_1 in Hk. unfold Spec.decoded. simpl.
      repeat (apply elem_of_cons in Hk; destruct Hk as [Hk|Hk]; [rewrite Hk; discriminate|]).
      apply elem_of_nil in Hk. contradiction.
  - intros p Hv. unfold step, decode_op.
    destruct ((0 <=? read (memory p) (pc p)) && (read (memory p) (pc p) <? table_size)) eqn:Hr.
    + right. rewrite parse_op_table, Hv.
      * reflexivity.
      * apply andb_true_iff in Hr. destruct Hr as [H1 H2].
        apply Z.leb_le in H1. apply Z.ltb_lt in H2. lia.
    + left. reflexivity.
  - exact step_no_immediate_write.
Qed.

Lemma decode_complete_witness :
  Spec.valid_head 1101 = true /\
  decode_op 1101 = Some (Spec.decoded 1101) /\ code (Spec.decoded 1101) <> illegal.
Proof.
  split; [vm_compute; reflexivity|].
  apply (proj1 decode_complete 1101). vm_compute. reflexivity.
Defined.

(** ** Suspension and resumption *)

Lemma step_return (p p' : program) :
  step p = Return p' ->
  memory p' = memory p /\ pc p' = pc p /\
  (st p' = waiting_for_input ->
   exists o, decode_op (read (memory p) (pc p)) = Some o /\ code o = input) /\
  (st p' = output_ready ->
   exists o, decode_op (read (memory p) (pc p)) = Some o /\ code o = output /\
             output_value p' = get p o 0).
Proof.
  unfold step. destruct (decode_op _) as [o|] eqn:Hd; [|discriminate].
  destruct (code o) eqn:Hc; try discriminate;
    try (unfold calc; destruct (put_address p o 2); discriminate).
  - destruct (param0 o); intros H; inversion H; subst; simpl;
      (split; [reflexivity | split; [reflexivity | split; intros Hs; [eauto | discriminate]]]).
  - intros H; inversion H; subst; simpl.
    split; [reflexivity | split; [reflexivity | split; intros Hs; [discriminate | eauto]]].
  - intros H; inversion H; subst; simpl.
    split; [reflexivity | split; [reflexivity | split; intros Hs; discriminate]].
Qed.

Lemma run_loop_resumed (fuel : nat) (p p' : program) :
  run_loop fuel p = Resumed p' ->
  exists q, step q = Return p'.
Proof.
  revert p. induction fuel as [|fuel IH]; intros p H; simpl in H; [discriminate|].
  destruct (step p) eqn:Hs; [exact (IH _ H) | inversion H; subst; eauto | discriminate].
Qed.

Lemma state_eqb_true (a b : state) : state_eqb a b = true <-> a = b.
Proof. destruct a, b; simpl; split; congruence. Qed.

Lemma state_eqb_false (a b : state) : a <> b -> state_eqb a b = false.
Proof. intros H. destruct (state_eqb a b) eqn:E; [|reflexivity]. apply state_eqb_true in E. contradiction. Qed.

(** C7: [resume] requires the state [ready] and otherwise dies on a failed
    check; [provide_input x] requires [waiting_for_input] and otherwise
    dies, and then writes [x] to the recorded input address, goes back to
    [ready] and advances [pc] by 2; [get_output] requires [output_ready]
    and otherwise dies, and then returns the pending value, goes back to
    [ready] and advances [pc] by 2; a [resume] that suspends leaves [pc] at
    the suspending [Input] resp. [Output] instruction. *)
Theorem vm_interface :
  (forall fuel p, st p <> ready -> resume fuel p = Died check_failed)
  /\ (forall p x, st p <> waiting_for_input -> provide_input p x = None)
  /\ (forall p x, st p = waiting_for_input ->
        provide_input p x =
          Some {| memory := <[input_address p := x]> (memory p); pc := Word.add (pc p) 2;
                  input_address := input_address p; output_value := output_value p;
                  relative_base := relative_base p; st := ready |})
  /\ (forall p, st p <> output_ready -> get_output p = None)
  /\ (forall p, st p = output_ready ->
        get_output p =
          Some (output_value p,
                {| memory := memory p; pc := Word.add (pc p) 2;
                   input_address := input_address p; output_value := output_value p;
                   relative_base := relative_base p; st := ready |}))
  /\ (forall fuel p p', resume fuel p = Resumed p' ->
        (st p' = waiting_for_input ->
         exists o, decode_op (read (memory p') (pc p')) = Some o /\ code o = input)
        /\ (st p' = output_ready ->
            exists o, decode_op (read (memory p') (pc p')) = Some o /\ code o = output)).
Proof.
  split; [|split; [|split; [|split; [|split]]]].
  - intros fuel p H. unfold resume. rewrite state_eqb_false by exact H. reflexivity.
  - intros p x H. unfold provide_input. rewrite state_eqb_false by exact H. reflexivity.
  - intros p x H. unfold provide_input. rewrite H. reflexivity.
  - intros p H. unfold get_output. rewrite state_eqb_false by exact H. reflexivity.
  - intros p H. unfold get_output. rewrite H. reflexivity.
  - intros fuel p p' H. unfold resume in H.
    destruct (state_eqb (st p) ready); [|discriminate].
    destruct (run_loop_resumed _ _ _ H) as [q Hq].
    destruct (step_return _ _ Hq) as (Hm & Hpc & Hin & Hout).
    rewrite Hm, Hpc. split.
    + exact Hin.
    + intros Hs. destruct (Hout Hs) as (o & Ho & Hc & _). eauto.
Qed.

Lemma vm_interface_witness :
  let p := make_program [3; 0; 99] in
  resume 10%nat p = Resumed (with_state (with_input_address p 0) waiting_for_input) /\
  exists o, decode_op (read (memory p) (pc p)) = Some o /\ code o = input.
Proof.
  intros p. split; [vm_compute; reflexivity|].
  pose proof (proj2 (proj2 (proj2 (proj2 (proj2 vm_interface)))) 10%nat p
                (with_state (with_input_address p 0) waiting_for_input)) as Hr.
  apply (proj1 (Hr ltac:(vm_compute; reflexivity))). reflexivity.
Defined.

(** ** Loading a program text *)

Lemma digit_not_space (c : Ascii.ascii) : Load.is_digit c = true -> Load.is_space c = false.
Proof.
  unfold Load.is_digit, Load.is_space. intros H.
  apply andb_true_iff in H as [H1 H2]. apply Nat.leb_le in H1, H2.
  repeat rewrite (proj2 (Nat.eqb_neq _ _)) by lia. reflexivity.
Qed.

Lemma digit_not_minus (c : Ascii.ascii) : Load.is_digit c = true -> Ascii.eqb c Load.minus_sign = false.
Proof.
  intros H. destruct (Ascii.eqb c Load.minus_sign) eqn:E; [|reflexivity].
  apply Ascii.eqb_eq in E. subst. discriminate H.
Qed.

Lemma minus_not_space : Load.is_space Load.minus_sign = false.
Proof. reflexivity. Qed.

Lemma take_digits_app (ds r : list Ascii.ascii) (acc : Z) :
  Forall (fun c => Load.is_digit c = true) ds -> Load.starts_with_digit r = false ->
  Load.take_digits acc (ds ++ r)
  = (fold_left (fun a c => 10 * a + Load.digit_value c) ds acc, r).
Proof.
  intros Hd Hr. revert acc. induction Hd as [|c ds Hc Hds IH]; intros acc; simpl.
  - destruct r as [|c r]; simpl in *; [reflexivity|]. rewrite Hr. reflexivity.
  - rewrite Hc. apply IH.
Qed.

Lemma skip_token (t : LoadSpec.token) (r : list Ascii.ascii) :
  LoadSpec.digits t <> [] -> Forall (fun c => Load.is_digit c = true) (LoadSpec.digits t) ->
  Load.skip_whitespace (LoadSpec.token_text t ++ r) = LoadSpec.token_text t ++ r.
Proof.
  intros Hne Hd. unfold LoadSpec.token_text.
  destruct (LoadSpec.neg t); simpl; [reflexivity|].
  destruct (LoadSpec.digits t) as [|c ds]; [contradiction|].
  apply Forall_cons in Hd as [Hc _]. simpl. rewrite digit_not_space by exact Hc. reflexivity.
Qed.

Lemma scan_value_digits (t : LoadSpec.token) (r : list Ascii.ascii) :
  LoadSpec.digits t <> [] -> Forall (fun c => Load.is_digit c = true) (LoadSpec.digits t) ->
  Load.starts_with_digit r = false ->
  Load.scan_value (LoadSpec.token_text t ++ r)
  = if Word.in_range (LoadSpec.token_value t) then Some (LoadSpec.token_value t, r) else None.
Proof.
  intros Hne Hd Hr. unfold Load.scan_value. rewrite skip_token by assumption.
  unfold Load.from_chars, LoadSpec.token_value, LoadSpec.token_text, LoadSpec.magnitude in *.
  destruct (LoadSpec.digits t) as [|c ds] eqn:Eds; [contradiction|].
  apply Forall_cons in Hd as [Hc Hds].
  destruct (LoadSpec.neg t); simpl.
  - rewrite Hc. rewrite (take_digits_app ds r _ Hds Hr). reflexivity.
  - rewrite digit_not_minus by exact Hc. simpl. rewrite Hc.
    rewrite (take_digits_app ds r _ Hds Hr). reflexivity.
Qed.

Lemma from_chars_token (t : LoadSpec.token) (r : list Ascii.ascii) :
  LoadSpec.valid_token t -> Load.starts_with_digit r = false ->
  Load.scan_value (LoadSpec.token_text t ++ r) = Some (LoadSpec.token_value t, r).
Proof.
  intros (Hne & Hd & Hin) Hr. rewrite scan_value_digits by assumption.
  rewrite Hin. reflexivity.
Qed.

Lemma scan_value_malformed (s : list Ascii.ascii) :
  LoadSpec.malformed s -> Load.scan_value s = None.
Proof.
  intros [c r (Hs & Hd & Hm) | t r Hne Hd Hin Hr | r Hr].
  - unfold Load.scan_value. simpl. rewrite Hs.
    unfold Load.from_chars. simpl.
    replace (Ascii.eqb c Load.minus_sign) with false
      by (symmetry; apply Ascii.eqb_neq; exact Hm).
    simpl. rewrite Hd. reflexivity.
  - rewrite scan_value_digits by assumption. rewrite Hin. reflexivity.
  - unfold Load.scan_value. simpl. unfold Load.from_chars. simpl. rewrite Hr. reflexivity.
Qed.

Lemma bind_Some_eq {A B} (x : A) (f : A -> option B) : (Some x ≫= f) = f x.
Proof. reflexivity. Qed.

Lemma done_comma (r : list Ascii.ascii) : Load.done (Load.comma :: r) = false.
Proof. reflexivity. Qed.

Lemma scan_comma_comma (r : list Ascii.ascii) : Load.scan_comma (Load.comma :: r) = Some r.
Proof. reflexivity. Qed.

Lemma tail_no_digit (ts : list LoadSpec.token) (r : list Ascii.ascii) :
  Load.starts_with_digit (concat (map LoadSpec.comma_token ts) ++ Load.comma :: r) = false
  /\ Load.starts_with_digit (concat (map LoadSpec.comma_token ts) ++ [Load.newline]) = false.
Proof. destruct ts; split; reflexivity. Qed.

Lemma load_loop_tokens (size : nat) (ts : list LoadSpec.token) (fuel n : nat) (acc : list Z) :
  Forall LoadSpec.valid_token ts -> (length ts <= fuel)%nat -> (n <= size)%nat ->
  Load.load_loop fuel size n acc (concat (map LoadSpec.comma_token ts) ++ [Load.newline])
  = if (n + length ts <=? size)%nat then Some (rev acc ++ map LoadSpec.token_value ts) else None.
Proof.
  intros Hv. revert fuel n acc.
  induction Hv as [|t ts Ht Hts IH]; intros fuel n acc Hf Hn.
  - simpl. rewrite Nat.add_0_r, app_nil_r.
    replace (n <=? size)%nat with true by (symmetry; apply Nat.leb_le; lia).
    destruct fuel; reflexivity.
  - destruct fuel as [|fuel]; simpl in Hf; [lia|].
    replace (concat (map LoadSpec.comma_token (t :: ts)) ++ [Load.newline])
      with (Load.comma :: (LoadSpec.token_text t ++ (concat (map LoadSpec.comma_token ts) ++ [Load.newline])))
      by (simpl; unfold LoadSpec.comma_token; rewrite <- app_assoc; reflexivity).
    cbn [Load.load_loop]. rewrite done_comma.
    destruct (n <? size)%nat eqn:Hlt.
    + apply Nat.ltb_lt in Hlt.
      rewrite scan_comma_comma. simpl.
      rewrite from_chars_token by (exact Ht || exact (proj2 (tail_no_digit ts []))). simpl.
      rewrite IH by lia.
      replace (S n + length ts)%nat with (n + S (length ts))%nat by lia.
      destruct (n + S (length ts) <=? size)%nat; [|reflexivity].
      simpl. rewrite <- app_assoc. reflexivity.
    + apply Nat.ltb_ge in Hlt.
      simpl length.
      replace (n + S (length ts) <=? size)%nat with false by (symmetry; apply Nat.leb_gt; lia).
      reflexivity.
Qed.

Lemma length_comma_tokens (ts : list LoadSpec.token) :
  (length ts <= length (concat (map LoadSpec.comma_token ts)))%nat.
Proof.
  induction ts as [|t ts IH]; simpl; [lia|].
  assert (1 <= length (LoadSpec.comma_token t))%nat by (unfold LoadSpec.comma_token; simpl; lia).
  rewrite length_app. lia.
Qed.

Lemma load_loop_malformed (size : nat) (ts : list LoadSpec.token) (fuel n : nat) (acc : list Z)
    (s : list Ascii.ascii) :
  Forall LoadSpec.valid_token ts -> Load.scan_value s = None ->
  Load.load_loop fuel size n acc (concat (map LoadSpec.comma_token ts) ++ Load.comma :: s) = None.
Proof.
  intros Hv Hs. revert fuel n acc.
  induction Hv as [|t ts Ht Hts IH]; intros fuel n acc.
  - simpl. destruct fuel; cbn [Load.load_loop]; rewrite done_comma; [reflexivity|].
    destruct (n <? size)%nat; [|reflexivity].
    rewrite scan_comma_comma. simpl. rewrite Hs. reflexivity.
  - replace (concat (map LoadSpec.comma_token (t :: ts)) ++ Load.comma :: s)
      with (Load.comma :: (LoadSpec.token_text t ++ (concat (map LoadSpec.comma_token ts) ++ Load.comma :: s)))
      by (simpl; unfold LoadSpec.comma_token; rewrite <- app_assoc; reflexivity).
    destruct fuel; cbn [Load.load_loop]; rewrite done_comma; [reflexivity|].
    destruct (n <? size)%nat; [|reflexivity].
    rewrite scan_comma_comma. simpl.
    rewrite from_chars_token by (exact Ht || exact (proj1 (tail_no_digit ts s))). simpl.
    apply IH.
Qed.

Lemma load_loop_length (fuel size n : nat) (acc : list Z) (s : list Ascii.ascii) (l : list Z) :
  Load.load_loop fuel size n acc s = Some l -> length acc = n -> (n <= size)%nat ->
  (n <= length l <= size)%nat.
Proof.
  revert n acc s. induction fuel as [|fuel IH]; intros n acc s H Ha Hn;
    cbn [Load.load_loop] in H.
  - destruct (Load.done s); [|discriminate]. inversion H; subst. rewrite length_rev. lia.
  - destruct (Load.done s).
    + inversion H; subst. rewrite length_rev. lia.
    + destruct (n <? size)%nat eqn:Hlt; [|discriminate]. apply Nat.ltb_lt in Hlt.
      destruct (Load.scan_comma s) as [s1|]; simpl in H; [|discriminate].
      destruct (Load.scan_value s1) as [[v s2]|]; simpl in H; [|discriminate].
      pose proof (IH (S n) (v :: acc) s2 H ltac:(simpl; lia) ltac:(lia)). lia.
Qed.

(** C10: [load] with the 5000-cell buffer of [run] returns exactly the
    values of a comma-separated token list, in order, when there are at most
    5000 of them and fails its check when there are more; it never returns
    fewer than 1 or more than 5000 values; and a malformed token (a
    character that cannot start a number, a number outside [int64_t], a lone
    minus sign), first or after any prefix of valid tokens, fails a check. *)
Theorem load_spec :
  (forall t ts, Forall LoadSpec.valid_token (t :: ts) ->
     Load.load Load.max_size (LoadSpec.text t ts)
     = if (length (t :: ts) <=? Load.max_size)%nat
       then Some (map LoadSpec.token_value (t :: ts)) else None)
  /\ (forall s l, Load.load Load.max_size s = Some l -> (1 <= length l <= Load.max_size)%nat)
  /\ (forall s, LoadSpec.malformed s -> Load.load Load.max_size s = None)
  /\ (forall t ts s, Forall LoadSpec.valid_token (t :: ts) -> LoadSpec.malformed s ->
        Load.load Load.max_size
          (LoadSpec.token_text t ++ concat (map LoadSpec.comma_token ts) ++ Load.comma :: s) = None).
Proof.
  split; [|split; [|split]].
  - intros t ts Hv. apply Forall_cons in Hv as [Ht Hts].
    unfold Load.load, LoadSpec.text. change ((0 <? Load.max_size)%nat) with true. cbv iota.
    rewrite from_chars_token by (exact Ht || exact (proj2 (tail_no_digit ts []))).
    rewrite bind_Some_eq. cbv beta iota.
    rewrite load_loop_tokens.
    + reflexivity.
    + exact Hts.
    + rewrite length_app. pose proof (length_comma_tokens ts). lia.
    + unfold Load.max_size. lia.
  - intros s l H. unfold Load.load in H.
    change ((0 <? Load.max_size)%nat) with true in H. cbv iota in H.
    destruct (Load.scan_value s) as [[v s1]|]; [|discriminate].
    rewrite bind_Some_eq in H. cbv beta iota in H.
    pose proof (load_loop_length _ _ _ _ _ _ H eq_refl ltac:(unfold Load.max_size; lia)). lia.
  - intros s Hm. unfold Load.load. simpl. rewrite scan_value_malformed by exact Hm. reflexivity.
  - intros t ts s Hv Hm. apply Forall_cons in Hv as [Ht Hts].
    unfold Load.load. change ((0 <? Load.max_size)%nat) with true. cbv iota.
    rewrite from_chars_token by (exact Ht || exact (proj1 (tail_no_digit ts s))).
    rewrite bind_Some_eq. cbv beta iota.
    apply load_loop_malformed; [exact Hts | exact (scan_value_malformed s Hm)].
Qed.

Lemma load_spec_witness :
  let t1 := {| LoadSpec.neg := false; LoadSpec.digits := [Ascii.ascii_of_nat 49] |} in
  let t2 := {| LoadSpec.neg := true; LoadSpec.digits := [Ascii.ascii_of_nat 50] |} in
  Forall LoadSpec.valid_token [t1; t2] /\
  Load.load Load.max_size (LoadSpec.text t1 [t2]) = Some [1; -2].
Proof.
  intros t1 t2.
  assert (Hv : Forall LoadSpec.valid_token [t1; t2]).
  { repeat constructor; (discriminate || reflexivity). }
  split; [exact Hv|].
  rewrite (proj1 load_spec t1 [t2] Hv). reflexivity.
Defined.

(** ** The source parser and [continue] *)

Lemma eqb_continue_return :
  String.eqb (String.string_of_list_ascii (String.list_ascii_of_string "return")) "continue" = false.
Proof. reflexivity. Qed.

(** C3 (code bug): a line that the statement dispatcher routes to
    [parse_continue_statement] ([continue;]) is always rejected, since that
    function expects the word [return]; the word [return] is what it accepts
    as a [continue] statement, while [break;] parses.  The code generator
    itself lowers [continue] inside a while loop to [jz 0, whilecond0]. *)
Theorem continue_statement_rejected :
  (forall s, Compiler.line_kind_of s = Compiler.k_continue ->
             Compiler.parse_continue_statement s = None)
  /\ Compiler.line_kind_of (String.list_ascii_of_string "continue;") = Compiler.k_continue
  /\ Compiler.parse_continue_statement (String.list_ascii_of_string "return;")
     = Some (Compiler.continue_statement, [])
  /\ Compiler.parse_break_statement (String.list_ascii_of_string "break;")
     = Some (Compiler.break_statement, [])
  /\ Scenario.gen_text (Codegen.gen_stmt
       (Compiler.while_statement (Compiler.e_literal 1) [Compiler.continue_statement]))
     = Some [Codegen.jz Codegen.zero (Codegen.imm (As.name "whilecond0"));
             As.label "whilestart0";
             Codegen.jz Codegen.zero (Codegen.imm (As.name "whilecond0"));
             As.label "whilecond0";
             Codegen.jnz (Codegen.imm (As.literal 1)) (Codegen.imm (As.name "whilestart0"));
             As.label "whileend0"].
Proof.
  split; [|split; [reflexivity | split; [reflexivity | split; [reflexivity | vm_compute; reflexivity]]]].
  intros s H. unfold Compiler.line_kind_of in H.
  destruct s as [|c s']; [discriminate|].
  unfold Compiler.parse_continue_statement, Compiler.eat_name, Compiler.consume_name.
  destruct (Compiler.peek_name (c :: s')) as [n s2] eqn:Ep. simpl fst in H.
  destruct (Compiler.is_alpha c); [|discriminate].
  destruct (decide (n = String.list_ascii_of_string "return")) as [->|Hne]; [|reflexivity].
  exfalso. rewrite eqb_continue_return in H.
  repeat match goal with
  | H : context [if String.eqb ?a ?b then _ else _] |- _ =>
      destruct (String.eqb a b); [discriminate H|]
  end.
  discriminate H.
Qed.

Lemma continue_statement_rejected_witness :
  Compiler.line_kind_of (String.list_ascii_of_string "continue;") = Compiler.k_continue /\
  Compiler.parse_continue_statement (String.list_ascii_of_string "continue;") = None.
Proof.
  split; [reflexivity|].
  apply (proj1 continue_statement_rejected). reflexivity.
Defined.

(** ** Assembler macros *)

Lemma encode_loop_fail (e : As.environment) (ss : list As.statement) (s : As.statement) :
  In s ss -> As.encode_statement e s = None -> As.encode_loop e ss = None.
Proof.
  induction ss as [|s' ss IH]; intros Hin Hs; [destruct Hin|].
  simpl. destruct Hin as [<-|Hin].
  - rewrite Hs. reflexivity.
  - destruct (As.encode_statement e s'); simpl; [|reflexivity].
    rewrite IH by assumption. reflexivity.
Qed.

(** C4 (code bug): resolution consults only the constants map, so a name
    bound only by [.define] is reported undefined wherever it is used (the
    whole [encode] fails) instead of being replaced by the macro's operand;
    a duplicate [.define], like a duplicate label, is fatal. *)
Theorem define_not_substituted :
  (forall e n, As.constants e !! n = None -> As.resolve_immediate e (As.name n) = None)
  /\ (forall ss e i, As.make_environment ss = Some e -> In (As.instr i) ss ->
        As.resolve_instruction e i = None -> As.encode ss = None)
  /\ As.encode [As.dir (As.define "n" (Codegen.imm (As.literal 5)));
                As.instr (As.Output (Codegen.imm (As.name "n")))] = None
  /\ As.encode [As.instr (As.Output (Codegen.imm (As.literal 5)))] = Some [104; 5]
  /\ As.make_environment [As.dir (As.define "n" (Codegen.imm (As.literal 5)));
                          As.dir (As.define "n" (Codegen.imm (As.literal 6)))] = None
  /\ As.make_environment [As.label "n"; As.label "n"] = None.
Proof.
  split; [|split; [|split; [vm_compute; reflexivity | split; [vm_compute; reflexivity
                                                  | split; vm_compute; reflexivity]]]].
  - intros e n H. simpl. rewrite H. reflexivity.
  - intros ss e i He Hin Hr. unfold As.encode. rewrite He. simpl.
    apply (encode_loop_fail e ss (As.instr i) Hin). simpl. rewrite Hr. reflexivity.
Qed.

Lemma define_not_substituted_witness :
  let ss := [As.dir (As.define "n" (Codegen.imm (As.literal 5)));
             As.instr (As.Output (Codegen.imm (As.name "n")))] in
  As.make_environment ss = Some {| As.constants := ∅; As.macros := {[ "n" := Codegen.imm (As.literal 5) ]} |}
  /\ As.encode ss = None.
Proof.
  intros ss. split; [vm_compute; reflexivity|].
  apply (proj1 (proj2 define_not_substituted) ss
           {| As.constants := ∅; As.macros := {[ "n" := Codegen.imm (As.literal 5) ]} |}
           (As.Output (Codegen.imm (As.name "n")))).
  - vm_compute. reflexivity.
  - right. left. reflexivity.
  - vm_compute. reflexivity.
Defined.

(** ** Compound assignment through a pointer *)

(** C8 (code bug): for [*p += 1] with [p] a global holding 10, the lowered
    [add] reads the cell whose address the preceding instruction patches in
    (label [read0]) but writes through a fresh, unlabelled [*0]: running it
    leaves cell 10 at 40 and overwrites cell 0 with 41.  The plain
    assignment [*p = 41] does write cell 10, and [p += 1] on the variable
    itself updates [p]. *)
Theorem deref_add_assign_miswrites :
  Scenario.gen_text (Codegen.gen_stmt (Compiler.add_assign Scenario.deref_p (Compiler.e_literal 1)))
  = Some [As.instr (As.Add (Codegen.calc Codegen.zero
                              (As.input_of_output (Codegen.address_of "gv_p"))
                              (Codegen.address_of "read0")));
          As.instr (As.Add (Codegen.calc
                              {| As.ip_label := Some "read0"; As.ip_input := As.in_address (As.literal 0) |}
                              (Codegen.imm (As.literal 1))
                              {| As.op_label := None; As.op_output := As.out_address (As.literal 0) |}))]
  /\ Scenario.cell (Scenario.run_statement
       (Compiler.add_assign Scenario.deref_p (Compiler.e_literal 1))) 10 = Some 40
  /\ Scenario.cell (Scenario.run_statement
       (Compiler.add_assign Scenario.deref_p (Compiler.e_literal 1))) 0 = Some 41
  /\ Scenario.cell (Scenario.run_statement
       (Compiler.assign Scenario.deref_p (Compiler.e_literal 41))) 10 = Some 41
  /\ Scenario.cell (Scenario.run_statement
       (Compiler.add_assign (Compiler.e_name "p") (Compiler.e_literal 1))) 5 = Some 11.
Proof.
  repeat split; vm_compute; reflexivity.
Qed.

(** ** Module ordering *)

Lemma lookup_in (ms : list (string * Link.module)) (k : string) :
  In k (map fst ms) -> exists m, Link.lookup ms k = Some m.
Proof.
  induction ms as [|[k' m'] ms IH]; simpl; intros H; [contradiction|].
  destruct (String.eqb k' k) eqn:E; [eauto|].
  destruct H as [->|H]; [rewrite String.eqb_refl in E; discriminate | auto].
Qed.

Lemma existsb_elem_false (ds o : list string) :
  (forall d, In d ds -> ~ In d o) -> existsb (fun d => bool_decide (d ∈ o)) ds = false.
Proof.
  induction ds as [|d ds IH]; intros H; simpl; [reflexivity|].
  rewrite bool_decide_eq_false_2.
  - apply IH. intros d' Hd'. apply H. right. exact Hd'.
  - rewrite list_elem_of_In. apply H. left. reflexivity.
Qed.

Lemma existsb_elem_true (ds o : list string) :
  existsb (fun d => bool_decide (d ∈ o)) ds = true -> exists d, In d ds /\ In d o.
Proof.
  intros H. apply existsb_exists in H as (d & Hd & Ho).
  apply bool_decide_eq_true_1 in Ho. rewrite list_elem_of_In in Ho. eauto.
Qed.

Lemma min_rank (rank : string -> nat) (o : list string) :
  o <> [] -> exists k, In k o /\ forall k', In k' o -> (rank k <= rank k')%nat.
Proof.
  induction o as [|x o IH]; intros Hne; [contradiction|].
  destruct o as [|y o].
  - exists x. split; [left; reflexivity|]. intros k' [<-|[]]. lia.
  - destruct IH as (k & Hk & Hmin); [discriminate|].
    destruct (Nat.le_gt_cases (rank x) (rank k)).
    + exists x. split; [left; reflexivity|].
      intros k' [<-|Hk']; [lia|]. specialize (Hmin k' Hk'). lia.
    + exists k. split; [right; exact Hk|].
      intros k' [<-|Hk']; [lia|]. exact (Hmin k' Hk').
Qed.

Lemma topological_nil (resolve : Link.module -> list string -> string)
    (ms : list (string * Link.module)) : LinkSpec.topological resolve ms [].
Proof. intros l1 k l2 H. destruct l1; discriminate H. Qed.

Lemma topological_snoc (resolve : Link.module -> list string -> string)
    (ms : list (string * Link.module)) (out : list string) (k : string) :
  LinkSpec.topological resolve ms out -> LinkSpec.ready_after resolve ms out k ->
  LinkSpec.topological resolve ms (out ++ [k]).
Proof.
  intros Ht Hk l1 k0 l2 H.
  induction l2 as [|x l2 _] using rev_ind.
  - apply app_inj_tail in H as [-> ->]. exact Hk.
  - rewrite app_comm_cons, app_assoc in H.
    apply app_inj_tail in H as [H _]. exact (Ht l1 k0 l2 H).
Qed.

Section Ordering.

Variable resolve : Link.module -> list string -> string.
Variable modules : list (string * Link.module).

Lemma sweep_some (kept rest output : list string) :
  (forall k, In k rest -> In k (LinkSpec.keys modules)) ->
  exists kept' output', Link.sweep resolve modules kept rest output = Some (kept', output').
Proof.
  revert kept output. induction rest as [|k rest IH]; intros kept output Hk; simpl; [eauto|].
  destruct (lookup_in modules k (Hk k (or_introl eq_refl))) as [m Hm]. rewrite Hm. simpl.
  destruct (existsb _ _); apply IH; intros k' Hk'; apply Hk; right; exact Hk'.
Qed.

Lemma sweep_perm_topo (kept rest output kept' output' : list string) :
  Link.sweep resolve modules kept rest output = Some (kept', output') ->
  Permutation (kept ++ rest ++ output) (LinkSpec.keys modules) -> LinkSpec.topological resolve modules output ->
  Permutation (kept' ++ output') (LinkSpec.keys modules) /\ LinkSpec.topological resolve modules output'.
Proof.
  revert kept output. induction rest as [|k rest IH]; intros kept output Hs Hp Ht; simpl in Hs.
  - inversion Hs; subst. split; [exact Hp | exact Ht].
  - destruct (Link.lookup modules k) as [m|] eqn:Hm; [|discriminate]. simpl in Hs.
    destruct (existsb _ _) eqn:Hx.
    + apply (IH _ _ Hs); [|exact Ht]. rewrite <- app_assoc. exact Hp.
    + apply (IH _ _ Hs).
      * rewrite <- Hp. apply Permutation_app_head. rewrite app_assoc.
        symmetry. apply Permutation_cons_append.
      * apply topological_snoc; [exact Ht|].
        intros m' d Hm' Hd Hkeys. rewrite Hm in Hm'. inversion Hm'; subst.
        assert (Hn : ~ In d (kept ++ k :: rest)).
        { intros Hin.
          assert (Ht' : existsb (fun d => bool_decide (d ∈ kept ++ k :: rest))
                          (Link.dependencies resolve m') = true).
          { apply existsb_exists. exists d. split; [exact Hd|].
            apply bool_decide_eq_true_2. rewrite list_elem_of_In. exact Hin. }
          congruence. }
        apply (Permutation_in _ (Permutation_sym Hp)) in Hkeys.
        rewrite !in_app_iff in Hn, Hkeys. simpl in Hn, Hkeys.
        rewrite !in_app_iff in Hkeys. tauto.
Qed.
Lemma sweep_progress (kept rest output kept' output' : list string) :
  Link.sweep resolve modules kept rest output = Some (kept', output') ->
  (length kept' <= length kept + length rest)%nat /\
  ((exists k m, In k rest /\ Link.lookup modules k = Some m /\
      forall d, In d (Link.dependencies resolve m) -> ~ In d (kept ++ rest)) ->
   (length kept' < length kept + length rest)%nat).
Proof.
  revert kept output. induction rest as [|k rest IH]; intros kept output Hs; simpl in Hs.
  - inversion Hs; subst. split; [lia|]. intros (k & m & [] & _).
  - destruct (Link.lookup modules k) as [m|] eqn:Hm; [|discriminate]. simpl in Hs.
    destruct (existsb _ _) eqn:Hx.
    + destruct (IH _ _ Hs) as [H1 H2]. rewrite length_app in H1, H2. simpl in H1, H2.
      simpl. split; [lia|].
      intros (k0 & m0 & [<-|Hk0] & Hm0 & Hd).
      * rewrite Hm in Hm0. inversion Hm0; subst.
        apply existsb_elem_true in Hx as (d & Hd1 & Hd2). exfalso. exact (Hd d Hd1 Hd2).
      * enough (length kept' < length kept + 1 + length rest)%nat by lia.
        apply H2. exists k0, m0. split; [exact Hk0|]. split; [exact Hm0|].
        intros d Hd1 Hd2. apply (Hd d Hd1). rewrite <- app_assoc in Hd2. exact Hd2.
    + destruct (IH _ _ Hs) as [H1 _]. simpl. split; lia.
Qed.

Lemma sweep_keeps (C kept rest output kept' output' : list string) :
  (forall k m, In k C -> Link.lookup modules k = Some m ->
               exists d, In d (Link.dependencies resolve m) /\ In d C) ->
  Link.sweep resolve modules kept rest output = Some (kept', output') ->
  (forall k, In k C -> In k (kept ++ rest)) -> forall k, In k C -> In k kept'.
Proof.
  intros Hc. revert kept output. induction rest as [|k rest IH]; intros kept output Hs Hin;
    simpl in Hs.
  - inversion Hs; subst. intros k Hk. specialize (Hin k Hk). rewrite app_nil_r in Hin. exact Hin.
  - destruct (Link.lookup modules k) as [m|] eqn:Hm; [|discriminate]. simpl in Hs.
    destruct (existsb _ _) eqn:Hx.
    + apply (IH _ _ Hs). intros k' Hk'. rewrite <- app_assoc. exact (Hin k' Hk').
    + apply (IH _ _ Hs). intros k' Hk'. pose proof (Hin k' Hk') as Hk1.
      apply in_app_or in Hk1 as [H|[<-|H]]; [apply in_or_app; left; exact H| |apply in_or_app; right; exact H].
      exfalso. destruct (Hc k m Hk' Hm) as (d & Hd1 & Hd2).
      assert (Ht : existsb (fun d => bool_decide (d ∈ kept ++ k :: rest))
                     (Link.dependencies resolve m) = true).
      { apply existsb_exists. exists d. split; [exact Hd1|].
        apply bool_decide_eq_true_2. rewrite list_elem_of_In. apply Hin. exact Hd2. }
      congruence.
Qed.

Lemma order_loop_acyclic (rank : string -> nat) :
  LinkSpec.acyclic resolve modules rank ->
  forall fuel outstanding output,
  Permutation (outstanding ++ output) (LinkSpec.keys modules) ->
  LinkSpec.topological resolve modules output -> (length outstanding <= fuel)%nat ->
  exists out, Link.order_loop resolve fuel modules outstanding output = Some out /\
    Permutation out (LinkSpec.keys modules) /\ LinkSpec.topological resolve modules out.
Proof.
  intros Hr. induction fuel as [|fuel IH]; intros o output Hp Ht Hf.
  - destruct o; [|simpl in Hf; lia]. exists output. simpl. auto.
  - destruct o as [|k0 o']; [exists output; simpl; auto|].
    assert (Hkeys : forall k, In k (k0 :: o') -> In k (LinkSpec.keys modules)).
    { intros k Hk. apply (Permutation_in _ Hp). apply in_or_app. left. exact Hk. }
    destruct (sweep_some [] (k0 :: o') output Hkeys) as (kept' & output' & Hs).
    cbn [Link.order_loop]. rewrite Hs. simpl.
    destruct (sweep_perm_topo _ _ _ _ _ Hs Hp Ht) as [Hp' Ht'].
    destruct (min_rank rank (k0 :: o')) as (k & Hk & Hmin); [discriminate|].
    destruct (lookup_in modules k (Hkeys k Hk)) as [m Hm].
    assert (Hlt : (length kept' < length (k0 :: o'))%nat).
    { apply (proj2 (sweep_progress _ _ _ _ _ Hs)). exists k, m.
      split; [exact Hk|]. split; [exact Hm|]. simpl. intros d Hd Hin.
      specialize (Hr k m d Hm Hd (Hkeys d Hin)). specialize (Hmin d Hin). lia. }
    apply IH; [exact Hp' | exact Ht' | lia].
Qed.

Lemma order_loop_cyclic (C : list string) :
  LinkSpec.cyclic resolve modules C ->
  forall fuel outstanding output, (forall k, In k C -> In k outstanding) ->
  Link.order_loop resolve fuel modules outstanding output = None.
Proof.
  intros (Hne & _ & Hc). induction fuel as [|fuel IH]; intros o output Hin;
    (destruct C as [|c C']; [contradiction|]);
    (destruct o as [|k0 o']; [destruct (Hin c (or_introl eq_refl))|]).
  - reflexivity.
  - cbn [Link.order_loop].
    destruct (Link.sweep resolve modules [] (k0 :: o') output) as [[kept' output']|] eqn:Hs;
      simpl; [|reflexivity].
    apply IH. exact (sweep_keeps _ _ _ _ _ _ Hc Hs Hin).
Qed.

End Ordering.

(** C5 (counterexample): with two modules importing each other the sweep
    never removes either of them, so the ordering loop runs until its bound
    on iterations is exhausted: even with 1000 sweeps for two modules it does
    not return, and no link error is reported. *)
Theorem dependency_order_cycle_diverges :
  Link.dependency_order Scenario.flat_resolve 1000%nat Scenario.cycle_ab = None.
Proof.
  unfold Link.dependency_order.
  apply (order_loop_cyclic Scenario.flat_resolve Scenario.cycle_ab ["a.is"; "b.is"]).
  - unfold LinkSpec.cyclic. split; [discriminate|]. split.
    + intros k Hk. exact Hk.
    + intros k m [<-|[<-|[]]] Hm; simpl in Hm; inversion Hm; subst;
        [exists "b.is" | exists "a.is"]; simpl; auto.
  - intros k Hk. exact Hk.
Qed.

(** C5 (amended): on an acyclic import graph (a rank decreasing along every
    import between modules) the ordering terminates within as many sweeps
    as there are modules and yields every module exactly once, each after
    all the modules it imports; on a graph with a cycle it never
    terminates, whatever the bound, and reports no error. *)
Theorem dependency_order_spec (resolve : Link.module -> list string -> string)
    (modules : list (string * Link.module)) :
  (forall rank, LinkSpec.acyclic resolve modules rank ->
     forall fuel, (length modules <= fuel)%nat ->
     exists out, Link.dependency_order resolve fuel modules = Some out /\
       Permutation out (LinkSpec.keys modules) /\ LinkSpec.topological resolve modules out)
  /\ (forall C, LinkSpec.cyclic resolve modules C ->
        forall fuel, Link.dependency_order resolve fuel modules = None).
Proof.
  split.
  - intros rank Hr fuel Hf. unfold Link.dependency_order.
    apply (order_loop_acyclic resolve modules rank Hr).
    + rewrite app_nil_r. reflexivity.
    + apply topological_nil.
    + rewrite length_map. exact Hf.
  - intros C Hc fuel. unfold Link.dependency_order.
    apply (order_loop_cyclic resolve modules C Hc).
    intros k Hk. destruct Hc as (_ & Hkeys & _). exact (Hkeys k Hk).
Qed.

Lemma dependency_order_spec_witness :
  LinkSpec.acyclic Scenario.flat_resolve Scenario.chain_ab Scenario.chain_rank /\
  exists out, Link.dependency_order Scenario.flat_resolve 2 Scenario.chain_ab = Some out /\
    Permutation out (LinkSpec.keys Scenario.chain_ab) /\
    LinkSpec.topological Scenario.flat_resolve Scenario.chain_ab out.
Proof.
  assert (Hr : LinkSpec.acyclic Scenario.flat_resolve Scenario.chain_ab Scenario.chain_rank).
  { intros k m d Hm Hd Hk. unfold Scenario.chain_ab in Hm. cbn [Link.lookup] in Hm.
    destruct (String.eqb "a.is" k) eqn:E1.
    - apply String.eqb_eq in E1. subst. inversion Hm; subst. simpl in Hd.
      destruct Hd as [Hd|[]]. rewrite <- Hd. vm_compute. lia.
    - destruct (String.eqb "b.is" k); [|discriminate].
      inversion Hm; subst. simpl in Hd. contradiction. }
  split; [exact Hr|].
  apply (proj1 (dependency_order_spec Scenario.flat_resolve Scenario.chain_ab)
           Scenario.chain_rank Hr 2%nat). simpl. lia.
Defined.

(** ** Local constants *)

Lemma gen_constant_eq (s : Codegen.cg) (n : string) (e : Compiler.expression) :
  Codegen.gen_stmt (Compiler.constant n e) s
  = if Codegen.has_local s n then None
    else match Codegen.eval_expr e s with
         | Some (v, s') => Codegen.define_constant n v s'
         | None => None
         end.
Proof.
  simpl. unfold Codegen.bind, Codegen.check_not_local, Codegen.bind, Codegen.gets.
  destruct (Codegen.has_local s n); reflexivity.
Qed.

Lemma lookup_scope_cases (sc : list Codegen.environment) (n : string) :
  Codegen.lookup_scope sc n = None \/ Codegen.lookup_scope sc n = Some Codegen.local_variable
  \/ Codegen.lookup_scope sc n = Some Codegen.local_constant.
Proof.
  induction sc as [|e sc IH]; simpl; [auto|].
  destruct (decide _); [auto|]. destruct (decide _); auto.
Qed.

Lemma lookup_scope_some (sc : list Codegen.environment) (n : string) :
  Codegen.lookup_scope sc n <> None <->
  exists e, In e sc /\ (is_Some (Codegen.env_variables e !! n) \/ is_Some (Codegen.env_constants e !! n)).
Proof.
  induction sc as [|e sc IH]; simpl.
  - split; [congruence|]. intros (e & [] & _).
  - destruct (decide _) as [Hv|Hv]; [split; [eauto | discriminate]|].
    destruct (decide _) as [Hc|Hc]; [split; [eauto | discriminate]|].
    rewrite IH. split.
    + intros (e' & He' & H). eauto.
    + intros (e' & [<-|He'] & H); [tauto | eauto].
Qed.

(** [has_local]: not a parameter, and bound in some frame of the stack. *)
Lemma has_local_spec (s : Codegen.cg) (n : string) :
  Codegen.has_local s n = true <->
  (n ∉ Codegen.arguments s) /\
  exists e, In e (Codegen.scope s) /\
            (is_Some (Codegen.env_variables e !! n) \/ is_Some (Codegen.env_constants e !! n)).
Proof.
  unfold Codegen.has_local, Codegen.lookup.
  destruct (decide (n ∈ Codegen.arguments s)) as [Ha|Ha].
  - split; [discriminate | tauto].
  - rewrite <- lookup_scope_some.
    destruct (lookup_scope_cases (Codegen.scope s) n) as [H|[H|H]]; rewrite H.
    + split; [|tauto]. repeat (destruct (decide _)); discriminate.
    + split; [intros _; split; [exact Ha | discriminate] | reflexivity].
    + split; [intros _; split; [exact Ha | discriminate] | reflexivity].
Qed.

Ltac fold_pure IHl IHr :=
  match goal with
  | H : Codegen.fold_literals _ (Codegen.eval_expr ?l) (Codegen.eval_expr ?r) ?s = Some _ |- _ =>
      unfold Codegen.fold_literals, Codegen.bind in H;
      destruct (Codegen.eval_expr l s) as [[x s1]|]; [|discriminate];
      specialize (IHl x s1 eq_refl) as ->;
      destruct (Codegen.eval_expr r s) as [[y s2]|]; [|discriminate];
      specialize (IHr y s2 eq_refl) as ->;
      destruct x, y; try discriminate; unfold Codegen.ret in H; congruence
  end.

(** Constant folding reads the state and never changes it. *)
Lemma eval_expr_pure (e : Compiler.expression) (s s' : Codegen.cg) (v : As.immediate) :
  Codegen.eval_expr e s = Some (v, s') -> s' = s.
Proof.
  revert v s'.
  induction e; intros v s' H; simpl in H; try discriminate.
  - unfold Codegen.ret in H. congruence.
  - unfold Codegen.get_constant in H.
    repeat (case_match; try discriminate); congruence.
  - fold_pure IHe1 IHe2.
  - fold_pure IHe1 IHe2.
  - fold_pure IHe1 IHe2.
Qed.

Lemma has_local_false_scope (s : Codegen.cg) (n : string) :
  Codegen.has_local s n = false -> n ∉ Codegen.arguments s ->
  Codegen.lookup_scope (Codegen.scope s) n = None.
Proof.
  unfold Codegen.has_local, Codegen.lookup. intros H Ha.
  destruct (decide _); [contradiction|].
  destruct (lookup_scope_cases (Codegen.scope s) n) as [E|[E|E]]; rewrite E in H |- *;
    [reflexivity | discriminate | discriminate].
Qed.

(** * C9 (counterexample): in [main], [const n = 1;] followed by
    [if (1) { const n = 2; }]: the inner [n] is bound only in the enclosing
    frame of the function body, yet the inner definition is rejected.  The
    inner block on its own is accepted, and a [const] may shadow the global
    variable [p]. *)
Lemma const_shadow_rejected :
  Scenario.gen_text
    (Codegen.gen_stmts
       [Compiler.constant "n" (Compiler.e_literal 1);
        Compiler.if_statement (Compiler.e_literal 1)
          [Compiler.constant "n" (Compiler.e_literal 2)] []]) = None /\
  Scenario.gen_text
    (Codegen.gen_stmts
       [Compiler.if_statement (Compiler.e_literal 1)
          [Compiler.constant "n" (Compiler.e_literal 2)] []]) <> None /\
  Scenario.gen_text
    (Codegen.gen_stmts
       [Compiler.constant "p" (Compiler.e_literal 1);
        Compiler.output_statement (Compiler.e_name "p")])
  = Some [As.instr (As.Output {| As.ip_label := None;
                                 As.ip_input := As.in_immediate (As.literal 1) |})].
Proof.
  split; [vm_compute; reflexivity|].
  split; [vm_compute; discriminate | vm_compute; reflexivity].
Qed.

(** * C9 (amended): [const n = e;] is rejected exactly when [n] is a local
    variable or local constant of ANY frame of the enclosing function (the
    innermost one or an outer one) and is not a parameter of it.  Otherwise,
    when [e] folds to a value [v], the constant is added to the innermost
    frame: it shadows a module-level or imported binding of [n] (the name now
    resolves to the local constant [v]), except that a parameter named [n]
    keeps taking precedence. *)
Theorem const_definition (s : Codegen.cg) (n : string) (e : Compiler.expression) :
  (Codegen.has_local s n = true <->
   (n ∉ Codegen.arguments s) /\
   exists fr, In fr (Codegen.scope s) /\
     (is_Some (Codegen.env_variables fr !! n) \/ is_Some (Codegen.env_constants fr !! n))) /\
  (Codegen.has_local s n = true -> Codegen.gen_stmt (Compiler.constant n e) s = None) /\
  (Codegen.eval_expr e s = None -> Codegen.gen_stmt (Compiler.constant n e) s = None) /\
  (forall v s1, Codegen.has_local s n = false -> Codegen.scope s <> [] ->
     Codegen.eval_expr e s = Some (v, s1) ->
     exists s', Codegen.gen_stmt (Compiler.constant n e) s = Some (tt, s') /\
       Codegen.lookup s' n =
         (if decide (n ∈ Codegen.arguments s) then Codegen.argument else Codegen.local_constant) /\
       (n ∉ Codegen.arguments s -> Codegen.get_constant n s' = Some (v, s'))).
Proof.
  split; [apply has_local_spec|].
  split; [intros H; rewrite gen_constant_eq, H; reflexivity|].
  split.
  { intros He. rewrite gen_constant_eq, He. destruct (Codegen.has_local s n); reflexivity. }
  intros v s1 Hl Hsc He.
  pose proof (eval_expr_pure _ _ _ _ He) as ->.
  rewrite gen_constant_eq, Hl, He.
  unfold Codegen.define_constant, Codegen.update_current, Codegen.modify.
  destruct (Codegen.scope s) as [|cur rest] eqn:Hs; [contradiction|].
  eexists. split; [reflexivity|].
  destruct (decide (n ∈ Codegen.arguments s)) as [Ha|Ha].
  - split; [|contradiction].
    unfold Codegen.lookup. simpl. destruct (decide _); [reflexivity | contradiction].
  - pose proof (has_local_false_scope s n Hl Ha) as Hn. rewrite Hs in Hn. simpl in Hn.
    destruct (decide (is_Some (Codegen.env_variables cur !! n))) as [Hv|Hv]; [discriminate|].
    destruct (decide (is_Some (Codegen.env_constants cur !! n))) as [Hc|Hc]; [discriminate|].
    assert (Codegen.emplace (Codegen.env_constants cur) n v !! n = Some v) as Hem.
    { unfold Codegen.emplace.
      match goal with |- context [match ?x with Some _ => _ | None => _ end] =>
        destruct x eqn:E end.
      - exfalso. apply Hc. eexists; reflexivity.
      - apply lookup_insert_eq. }
    split.
    + unfold Codegen.lookup. simpl.
      destruct (decide _); [contradiction|].
      destruct (decide _); [contradiction|].
      rewrite Hem. destruct (decide _) as [_|Hno]; [reflexivity|].
      exfalso. apply Hno. eexists; reflexivity.
    + intros _. unfold Codegen.get_constant. simpl. rewrite Hem. reflexivity.
Qed.

Lemma const_definition_witness :
  Codegen.has_local Scenario.init_cg "p" = false /\
  Codegen.scope Scenario.init_cg <> [] /\
  Codegen.eval_expr (Compiler.e_literal 1) Scenario.init_cg
    = Some (As.literal 1, Scenario.init_cg) /\
  exists s', Codegen.gen_stmt (Compiler.constant "p" (Compiler.e_literal 1)) Scenario.init_cg
             = Some (tt, s') /\
    Codegen.lookup s' "p" =
      (if decide ("p" ∈ Codegen.arguments Scenario.init_cg) then Codegen.argument
       else Codegen.local_constant) /\
    ("p" ∉ Codegen.arguments Scenario.init_cg ->
     Codegen.get_constant "p" s' = Some (As.literal 1, s')).
Proof.
  split; [vm_compute; reflexivity|].
  split; [vm_compute; discriminate|].
  split; [reflexivity|].
  apply (proj2 (proj2 (proj2 (const_definition Scenario.init_cg "p" (Compiler.e_literal 1)))) (As.literal 1) Scenario.init_cg).
  - vm_compute; reflexivity.
  - vm_compute; discriminate.
  - reflexivity.
Defined.

(* ================================================================== *)
(** * Further properties of the code *)

(** ** The VM decoder and the disassembler against the assembler *)

Lemma wrap_small (z : Z) : 0 <= z <= Word.max_value -> Word.wrap z = z.
Proof.
  unfold Word.wrap, Word.max_value, Word.modulus. intros Hz.
  rewrite Z.mod_small by lia.
  destruct (Z.ltb_spec z (2 ^ 63)); lia.
Qed.

Lemma load_memory_below (m : gmap Z Z) (i j : Z) (xs : list Z) :
  j < i -> Intcode.load_memory m i xs !! j = m !! j.
Proof.
  revert m i. induction xs as [|x xs IH]; intros m i Hj; simpl; [reflexivity|].
  rewrite IH by lia. apply lookup_insert_ne. lia.
Qed.

Lemma load_memory_lookup (m : gmap Z Z) (i j : Z) (xs : list Z) :
  i <= j < i + Z.of_nat (length xs) ->
  Intcode.load_memory m i xs !! j = xs !! Z.to_nat (j - i).
Proof.
  revert m i. induction xs as [|x xs IH]; intros m i Hj; simpl in *; [lia|].
  destruct (decide (j = i)) as [->|Hne].
  - rewrite Z.sub_diag, load_memory_below by lia. apply lookup_insert_eq.
  - rewrite IH by lia.
    replace (Z.to_nat (j - i)) with (S (Z.to_nat (j - (i + 1)))) by lia. reflexivity.
Qed.

Lemma read_loaded (m : gmap Z Z) (pc k : Z) (xs : list Z) (v : Z) :
  0 <= pc -> 0 <= k -> pc + k <= Word.max_value -> xs !! Z.to_nat k = Some v ->
  Intcode.read (Intcode.load_memory m pc xs) (Word.add pc k) = v.
Proof.
  intros Hpc Hk0 Hk Hv. unfold Word.add. rewrite wrap_small by lia.
  unfold Intcode.read. rewrite load_memory_lookup.
  - replace (Z.to_nat (pc + k - pc)) with (Z.to_nat k) by lia. rewrite Hv. reflexivity.
  - apply lookup_lt_Some in Hv. lia.
Qed.

Lemma read_loaded_head (m : gmap Z Z) (pc x : Z) (xs : list Z) :
  Intcode.read (Intcode.load_memory m pc (x :: xs)) pc = x.
Proof.
  unfold Intcode.read. simpl. rewrite load_memory_below by lia.
  rewrite lookup_insert_eq. reflexivity.
Qed.

(** The VM's decode table accepts the head of every assembled
    instruction other than a [Literal], with the instruction's opcode and
    operand modes, and [op_size] of that opcode is the assembler's
    [size]. *)
Theorem assembled_head_decodes (i : As.instruction) :
  (forall v, i <> As.Literal v) ->
  Intcode.decode_op (As.opcode i) = Some (Disasm.expected_op i) /\
  Disasm.op_size (Intcode.code (Disasm.expected_op i)) = As.size i.
Proof.
  intros Hl. destruct i; [exfalso; eapply Hl; reflexivity| ..];
    destruct_params; split; reflexivity.
Qed.

Lemma assembled_head_decodes_witness :
  (forall v, As.Halt <> As.Literal v) /\
  Intcode.decode_op (As.opcode As.Halt) = Some (Disasm.expected_op As.Halt) /\
  Disasm.op_size (Intcode.code (Disasm.expected_op As.Halt)) = As.size As.Halt.
Proof.
  split; [discriminate|]. apply (assembled_head_decodes As.Halt). discriminate.
Defined.

(** The [--debug] disassembler inverts the encoder: the cells encoding a
    resolved instruction, placed at [pc], decode to that instruction with
    its operand labels dropped; a [Literal] does so when its last two
    digits are no opcode. *)
Theorem disassemble_encoded (i : As.instruction) (mem : gmap Z Z) (pc : Z) (cells : list Z) :
  Spec.resolved i ->
  As.encode_instruction i = Some cells ->
  (match i with As.Literal v => Intcode.opcode_of (Z.rem v 100) = Intcode.illegal | _ => True end) ->
  0 <= pc -> pc + 3 <= Word.max_value ->
  Disasm.decode (Intcode.load_memory mem pc cells) pc = Some (Disasm.unlabel i).
Proof.
  intros Hres Henc Hlit Hpc Hmax. unfold Spec.resolved in Hres.
  destruct i; destruct_params; simpl in *;
  repeat match goal with
  | H : Forall _ (_ :: _) |- _ => inversion H; clear H; subst
  | H : Spec.is_literal _ |- _ =>
      let v := fresh "v" in let Hv := fresh "Hv" in
      destruct H as [v Hv]; cbn in Hv; subst
  end;
  unfold As.encode_instruction in Henc; simpl in Henc; injection Henc as <-;
  unfold Disasm.decode, Disasm.decode_calculation, Disasm.decode_jump;
  rewrite read_loaded_head;
  repeat (erewrite read_loaded; [| lia | lia | lia | reflexivity]);
  try (match goal with H : Intcode.opcode_of _ = Intcode.illegal |- _ =>
         replace (As.opcode _) with value by (unfold As.opcode; simpl; lia);
         rewrite H; reflexivity end);
  reflexivity.
Qed.

Lemma disassemble_encoded_witness :
  let i := As.Add {| As.ca := {| As.ip_label := Some "x"; As.ip_input := As.in_immediate (As.literal 2) |};
                     As.cb := {| As.ip_label := None; As.ip_input := As.in_address (As.literal 3) |};
                     As.cout := {| As.op_label := None; As.op_output := As.out_relative (As.literal 7) |} |} in
  Spec.resolved i /\ As.encode_instruction i = Some [20101; 2; 3; 7] /\
  Disasm.decode (Intcode.load_memory ∅ 0 [20101; 2; 3; 7]) 0 = Some (Disasm.unlabel i).
Proof.
  intros i.
  assert (Hr : Spec.resolved i).
  { unfold Spec.resolved, i; simpl. repeat constructor; eexists; reflexivity. }
  split; [exact Hr|]. split; [reflexivity|].
  apply (disassemble_encoded i ∅ 0 [20101; 2; 3; 7] Hr); [reflexivity | exact I | lia | vm_compute; discriminate].
Defined.

(** ** Driving the VM: [resume] and [program::run] *)

Lemma step_return_state (p p' : program) :
  step p = Return p' ->
  st p' <> ready /\
  (st p' = halted -> exists o, decode_op (read (memory p) (pc p)) = Some o /\ code o = halt).
Proof.
  unfold step. destruct (decode_op _) as [o|] eqn:Hd; [|discriminate].
  destruct (code o) eqn:Hc; try discriminate;
    try (unfold calc; destruct (put_address p o 2); discriminate).
  - destruct (param0 o); intros H; inversion H; subst; simpl;
      (split; [discriminate | intros Hs; discriminate]).
  - intros H; inversion H; subst; simpl. split; [discriminate | intros Hs; discriminate].
  - intros H; inversion H; subst; simpl. split; [discriminate | eauto].
Qed.

(** [resume()] only ever returns when the program waits for input, has
    an output, or has halted: it never returns [ready], so the
    ["Program paused for no reason."] branch of [main] and the
    [case state::ready] of [run] are unreachable.  When it reports a halt,
    the program counter rests on a [halt] instruction. *)
Theorem resume_never_ready (fuel : nat) (p p' : program) :
  resume fuel p = Resumed p' ->
  st p' <> ready /\
  (st p' = halted -> exists o, decode_op (read (memory p') (pc p')) = Some o /\ code o = halt).
Proof.
  unfold resume. destruct (state_eqb (st p) ready); [|discriminate].
  intros H. apply run_loop_resumed in H as [q Hq].
  pose proof (step_return q p' Hq) as (Hm & Hpc & _).
  rewrite Hm, Hpc. exact (step_return_state q p' Hq).
Qed.

Lemma resume_never_ready_witness :
  resume 10 (make_program [99]) = Resumed (with_state (make_program [99]) halted) /\
  st (with_state (make_program [99]) halted) <> ready /\
  (st (with_state (make_program [99]) halted) = halted ->
   exists o, decode_op (read (memory (with_state (make_program [99]) halted))
                             (pc (with_state (make_program [99]) halted))) = Some o /\ code o = halt).
Proof.
  assert (H : resume 10 (make_program [99]) = Resumed (with_state (make_program [99]) halted))
    by reflexivity.
  split; [exact H|]. exact (resume_never_ready 10 _ _ H).
Defined.

Lemma run_loop_mono (f f' : nat) (p : program) (o : outcome) :
  run_loop f p = o -> o <> OutOfFuel -> (f <= f')%nat -> run_loop f' p = o.
Proof.
  revert f' p. induction f as [|f IH]; intros f' p H Ho Hle; simpl in H; [congruence|].
  destruct f' as [|f']; [lia|]. simpl.
  destruct (step p); [apply IH; [exact H | exact Ho | lia] | exact H | exact H].
Qed.

Lemma resume_mono (f f' : nat) (p : program) (o : outcome) :
  resume f p = o -> o <> OutOfFuel -> (f <= f')%nat -> resume f' p = o.
Proof.
  unfold resume. destruct (state_eqb (st p) ready); [|intros H _ _; exact H].
  apply run_loop_mono.
Qed.

(** [run] fills the output buffer from the front and never past its
    end, ignores input it does not read, and gives the same result with
    a larger output buffer. *)
Theorem run_buffers (fuel : nat) (p : program) (input : list Z) (cap : nat) (outs r : list Z) :
  Run.run fuel p input cap outs = Some r ->
  (exists fresh, r = outs ++ fresh) /\
  ((length outs <= cap)%nat -> (length r <= cap)%nat) /\
  (forall extra, Run.run fuel p (input ++ extra) cap outs = Some r) /\
  (forall cap', (cap <= cap')%nat -> Run.run fuel p input cap' outs = Some r).
Proof.
  revert p input outs. induction fuel as [|f IH]; intros p input outs H; simpl in H; [discriminate|].
  destruct (resume (S f) p) as [p'| |] eqn:Hr; [|discriminate|discriminate].
  destruct (st p') eqn:Hs.
  - destruct (IH _ _ _ H) as (Hpre & Hlen & Hext & Hcap).
    split; [exact Hpre|]. split; [exact Hlen|].
    split; [intros extra; simpl; rewrite Hr, Hs; apply Hext|].
    intros cap' Hc; simpl; rewrite Hr, Hs; apply Hcap; exact Hc.
  - destruct input as [|x input']; [discriminate|].
    destruct (provide_input p' x) as [p''|] eqn:Hp; [|discriminate]. simpl in H.
    destruct (IH _ _ _ H) as (Hpre & Hlen & Hext & Hcap).
    split; [exact Hpre|]. split; [exact Hlen|].
    split; [intros extra; simpl; rewrite Hr, Hs, Hp; apply Hext|].
    intros cap' Hc; simpl; rewrite Hr, Hs, Hp; apply Hcap; exact Hc.
  - destruct (Nat.ltb_spec (length outs) cap) as [Hlt|]; [|discriminate].
    destruct (get_output p') as [[v p'']|] eqn:Hg; [|discriminate]. simpl in H.
    destruct (IH _ _ _ H) as ([fresh Hpre] & Hlen & Hext & Hcap).
    split; [exists (v :: fresh); rewrite Hpre, <- app_assoc; reflexivity|].
    split; [intros _; apply Hlen; rewrite length_app; simpl; lia|].
    split.
    + intros extra; simpl; rewrite Hr, Hs.
      destruct (Nat.ltb_spec (length outs) cap); [|lia]. rewrite Hg. apply Hext.
    + intros cap' Hc; simpl; rewrite Hr, Hs.
      destruct (Nat.ltb_spec (length outs) cap'); [|lia]. rewrite Hg. apply Hcap; exact Hc.
  - injection H as <-.
    split; [exists []; rewrite app_nil_r; reflexivity|]. split; [tauto|].
    split; [intros extra; simpl; rewrite Hr, Hs; reflexivity|].
    intros cap' _; simpl; rewrite Hr, Hs; reflexivity.
Qed.

(** The iteration bound of the model only cuts runs short: a result
    obtained within some bound is the result for every larger one. *)
Theorem run_fuel_mono (fuel fuel' : nat) (p : program) (input : list Z) (cap : nat) (outs r : list Z) :
  Run.run fuel p input cap outs = Some r -> (fuel <= fuel')%nat ->
  Run.run fuel' p input cap outs = Some r.
Proof.
  revert fuel' p input outs. induction fuel as [|f IH]; intros fuel' p input outs H Hle;
    simpl in H; [discriminate|].
  destruct fuel' as [|f']; [lia|].
  destruct (resume (S f) p) as [p'| |] eqn:Hr; [|discriminate|discriminate].
  assert (Hr' : resume (S f') p = Resumed p') by (apply (resume_mono (S f)); [exact Hr | discriminate | lia]).
  simpl. rewrite Hr'.
  destruct (st p'); try (apply IH; [exact H | lia]).
  - destruct input as [|x input']; [discriminate|].
    destruct (provide_input p' x); [|discriminate]. apply IH; [exact H | lia].
  - destruct (length outs <? cap)%nat; [|discriminate].
    destruct (get_output p') as [[v p'']|]; [|discriminate]. apply IH; [exact H | lia].
  - exact H.
Qed.

(** The echo program [in *0; out *0; halt] on the input [7]. *)
Lemma run_buffers_witness :
  Run.run 10 (make_program [3; 0; 4; 0; 99]) [7] 1 [] = Some [7] /\
  (exists fresh, [7] = [] ++ fresh) /\
  ((length (@nil Z) <= 1)%nat -> (length [7] <= 1)%nat) /\
  (forall extra, Run.run 10 (make_program [3; 0; 4; 0; 99]) ([7] ++ extra) 1 [] = Some [7]) /\
  (forall cap', (1 <= cap')%nat -> Run.run 10 (make_program [3; 0; 4; 0; 99]) [7] cap' [] = Some [7]).
Proof.
  assert (H : Run.run 10 (make_program [3; 0; 4; 0; 99]) [7] 1 [] = Some [7]) by reflexivity.
  split; [exact H|]. exact (run_buffers 10 _ [7] 1 [] [7] H).
Defined.

Lemma run_fuel_mono_witness :
  Run.run 10 (make_program [3; 0; 4; 0; 99]) [7] 1 [] = Some [7] /\ (10 <= 20)%nat /\
  Run.run 20 (make_program [3; 0; 4; 0; 99]) [7] 1 [] = Some [7].
Proof.
  assert (H : Run.run 10 (make_program [3; 0; 4; 0; 99]) [7] 1 [] = Some [7]) by reflexivity.
  split; [exact H|]. split; [lia|]. exact (run_fuel_mono 10 20 _ [7] 1 [] [7] H ltac:(lia)).
Defined.

(** ** The layout of the assembled image *)

Lemma set_keeps {V} (m m' : gmap string V) (k : string) (v : V) (k' : string) (v' : V) :
  As.set m k v = Some m' -> m !! k' = Some v' -> m' !! k' = Some v'.
Proof.
  unfold As.set. destruct (m !! k) eqn:E; [discriminate|]. intros H Hk; injection H as <-.
  rewrite lookup_insert_ne; [exact Hk|]. intros ->. congruence.
Qed.

Lemma set_new {V} (m m' : gmap string V) (k : string) (v : V) :
  As.set m k v = Some m' -> m' !! k = Some v.
Proof.
  unfold As.set. destruct (m !! k); [discriminate|]. intros H; injection H as <-.
  apply lookup_insert_eq.
Qed.

Lemma set_labels_keeps (cs cs' : gmap string Z) (off : Z) (ls : list (option string * Z))
    (k : string) (v : Z) :
  As.set_labels cs off ls = Some cs' -> cs !! k = Some v -> cs' !! k = Some v.
Proof.
  revert cs. induction ls as [|[[l|] idx] ls IH]; intros cs H Hk; simpl in H.
  - congruence.
  - destruct (As.set cs l (off + idx)) as [cs1|] eqn:E; [|discriminate]. simpl in H.
    eapply IH; [exact H | eapply set_keeps; eauto].
  - eapply IH; eauto.
Qed.

Lemma set_labels_in (cs cs' : gmap string Z) (off : Z) (ls : list (option string * Z))
    (l : string) (idx : Z) :
  As.set_labels cs off ls = Some cs' -> In (Some l, idx) ls -> cs' !! l = Some (off + idx).
Proof.
  revert cs. induction ls as [|[[l'|] idx'] ls IH]; intros cs H Hin; simpl in H.
  - destruct Hin.
  - destruct (As.set cs l' (off + idx')) as [cs1|] eqn:E; [|discriminate]. simpl in H.
    destruct Hin as [Heq|Hin].
    + injection Heq as <- <-. eapply set_labels_keeps; [exact H | eapply set_new; eauto].
    + eapply IH; eauto.
  - destruct Hin as [Heq|Hin]; [discriminate | eapply IH; eauto].
Qed.

Lemma env_step_offset (e e' : As.environment) (off off' : Z) (s : As.statement) :
  As.env_step e off s = Some (e', off') -> off' = off + Layout.stmt_size s.
Proof.
  destruct s as [l|i|[n v|v|a]]; simpl; intros H.
  - destruct (As.set _ _ _); simpl in H; [|discriminate]. injection H as _ <-. lia.
  - destruct (As.set_labels _ _ _); simpl in H; [|discriminate]. injection H as _ <-. lia.
  - destruct (As.set _ _ _); simpl in H; [|discriminate]. injection H as _ <-. lia.
  - injection H as _ <-. reflexivity.
  - injection H as _ <-. simpl. lia.
Qed.

Lemma env_step_keeps (e e' : As.environment) (off off' : Z) (s : As.statement) (k : string) (v : Z) :
  As.env_step e off s = Some (e', off') -> As.constants e !! k = Some v ->
  As.constants e' !! k = Some v.
Proof.
  destruct s as [l|i|[n w|w|a]]; simpl; intros H Hk.
  - destruct (As.set _ _ _) eqn:E; simpl in H; [|discriminate]. injection H as <- _.
    simpl. eapply set_keeps; eauto.
  - destruct (As.set_labels _ _ _) eqn:E; simpl in H; [|discriminate]. injection H as <- _.
    simpl. eapply set_labels_keeps; eauto.
  - destruct (As.set _ _ _) eqn:E; simpl in H; [|discriminate]. injection H as <- _. exact Hk.
  - injection H as <- _. exact Hk.
  - injection H as <- _. exact Hk.
Qed.

Lemma env_loop_keeps (e ef : As.environment) (off : Z) (ss : list As.statement) (k : string) (v : Z) :
  As.env_loop e off ss = Some ef -> As.constants e !! k = Some v -> As.constants ef !! k = Some v.
Proof.
  revert e off. induction ss as [|s ss IH]; intros e off H Hk; simpl in H.
  - congruence.
  - destruct (As.env_step e off s) as [[e1 off1]|] eqn:E; [|discriminate]. simpl in H.
    eapply IH; [exact H | eapply env_step_keeps; eauto].
Qed.

(** The loop of [environment::environment] reaches each statement at the
    offset given by the sizes of the statements before it. *)
Lemma env_loop_split (e ef : As.environment) (off : Z) (pre post : list As.statement) (s : As.statement) :
  As.env_loop e off (pre ++ s :: post) = Some ef ->
  exists e1 e2, As.env_step e1 (off + Layout.image_size pre) s
                = Some (e2, off + Layout.image_size pre + Layout.stmt_size s) /\
    (forall k v, As.constants e2 !! k = Some v -> As.constants ef !! k = Some v).
Proof.
  revert e off. induction pre as [|s0 pre IH]; intros e off H; simpl in H |- *.
  - destruct (As.env_step e off s) as [[e2 off2]|] eqn:E; [|discriminate]. simpl in H.
    pose proof (env_step_offset _ _ _ _ _ E) as ->.
    exists e, e2. split; [rewrite Z.add_0_r; exact E|].
    intros k v Hk. eapply env_loop_keeps; eauto.
  - destruct (As.env_step e off s0) as [[e1 off1]|] eqn:E; [|discriminate]. simpl in H.
    pose proof (env_step_offset _ _ _ _ _ E) as ->.
    destruct (IH _ _ H) as (e3 & e4 & Hs & Hk).
    exists e3, e4. split; [|exact Hk].
    replace (off + (Layout.stmt_size s0 + Layout.image_size pre)) with
      (off + Layout.stmt_size s0 + Layout.image_size pre) by lia. exact Hs.
Qed.

Lemma length_list_ascii (a : string) : length (String.list_ascii_of_string a) = String.length a.
Proof. induction a as [|c a IH]; simpl; congruence. Qed.

Lemma resolve_immediate_literal (e : As.environment) (x y : As.immediate) :
  As.resolve_immediate e x = Some y -> exists v, y = As.literal v.
Proof.
  destruct x as [v|n]; simpl; [intros H; injection H as <-; eauto|].
  destruct (As.constants e !! n); [intros H; injection H as <-; eauto | discriminate].
Qed.

Lemma encode_instruction_length (i : As.instruction) (cells : list Z) :
  As.encode_instruction i = Some cells -> Z.of_nat (length cells) = As.size i.
Proof.
  unfold As.encode_instruction, As.operand_values.
  destruct i; intros H; simplify_option_eq; reflexivity.
Qed.

Lemma resolve_instruction_size (e : As.environment) (i i' : As.instruction) :
  As.resolve_instruction e i = Some i' -> As.size i' = As.size i.
Proof. destruct i; simpl; intros H; simplify_option_eq; reflexivity. Qed.

Lemma encode_statement_length (e : As.environment) (s : As.statement) (cells : list Z) :
  As.encode_statement e s = Some cells -> Z.of_nat (length cells) = Layout.stmt_size s.
Proof.
  destruct s as [l|i|[n w|w|a]]; simpl; intros H.
  - injection H as <-. reflexivity.
  - destruct (As.resolve_instruction e i) as [i'|] eqn:E; simpl in H; [|discriminate].
    rewrite (encode_instruction_length _ _ H). eapply resolve_instruction_size; eauto.
  - injection H as <-. reflexivity.
  - destruct (As.resolve_immediate e w) as [w'|] eqn:E; simpl in H; [|discriminate].
    destruct (resolve_immediate_literal _ _ _ E) as [v ->]. simpl in H. injection H as <-. reflexivity.
  - injection H as <-. rewrite length_app, length_map, length_list_ascii. simpl. lia.
Qed.

Lemma encode_loop_length (e : As.environment) (ss : list As.statement) (out : list Z) :
  As.encode_loop e ss = Some out -> Z.of_nat (length out) = Layout.image_size ss.
Proof.
  revert out. induction ss as [|s ss IH]; intros out H; simpl in H |- *.
  - injection H as <-. reflexivity.
  - destruct (As.encode_statement e s) as [xs|] eqn:E1; simpl in H; [|discriminate].
    destruct (As.encode_loop e ss) as [ys|] eqn:E2; simpl in H; [|discriminate].
    injection H as <-. rewrite length_app, Nat2Z.inj_add.
    rewrite (encode_statement_length _ _ _ E1), (IH ys eq_refl). reflexivity.
Qed.

Lemma encode_loop_split (e : As.environment) (pre post : list As.statement) (s : As.statement)
    (out : list Z) :
  As.encode_loop e (pre ++ s :: post) = Some out ->
  exists out1 cells out2, As.encode_statement e s = Some cells /\
    out = out1 ++ cells ++ out2 /\ Z.of_nat (length out1) = Layout.image_size pre.
Proof.
  revert out. induction pre as [|s0 pre IH]; intros out H; simpl in H.
  - destruct (As.encode_statement e s) as [xs|] eqn:E1; simpl in H; [|discriminate].
    destruct (As.encode_loop e post) as [ys|] eqn:E2; simpl in H; [|discriminate].
    injection H as <-. exists [], xs, ys. auto.
  - destruct (As.encode_statement e s0) as [xs|] eqn:E1; simpl in H; [|discriminate].
    destruct (As.encode_loop e (pre ++ s :: post)) as [ys|] eqn:E2; simpl in H; [|discriminate].
    injection H as <-. destruct (IH ys eq_refl) as (o1 & cells & o2 & Hc & -> & Hl).
    exists (xs ++ o1), cells, o2. split; [exact Hc|]. split; [rewrite app_assoc; reflexivity|].
    simpl. rewrite length_app, Nat2Z.inj_add, (encode_statement_length _ _ _ E1), Hl. reflexivity.
Qed.

Lemma param_labels_operands (i : As.instruction) (vs : list Z) (k : nat) (lbl : option string) (idx : Z) :
  As.operand_values i = Some vs -> As.param_labels i !! k = Some (lbl, idx) ->
  idx = Z.of_nat k + 1 /\ exists v, vs !! k = Some v.
Proof.
  destruct i; simpl; intros H Hk; simplify_option_eq;
    destruct k as [|[|[|k]]]; simpl in Hk; try discriminate;
    injection Hk as _ <-; (split; [lia | eexists; reflexivity]).
Qed.

Lemma resolve_instruction_labels (e : As.environment) (i i' : As.instruction) :
  As.resolve_instruction e i = Some i' -> As.param_labels i' = As.param_labels i.
Proof.
  destruct i; simpl; intros H; unfold As.resolve_calc, As.resolve_jump, As.resolve_input,
    As.resolve_output in H; simplify_option_eq; reflexivity.
Qed.

Lemma encode_image_size_helper (ss : list As.statement) (out : list Z) :
  As.encode ss = Some out -> Z.of_nat (length out) = Layout.image_size ss.
Proof.
  unfold As.encode. destruct (As.make_environment ss) as [e|]; simpl; [|discriminate].
  apply encode_loop_length.
Qed.

(** The assembled image is exactly as long as the sizes of its statements
    add up to. *)
Theorem encode_image_size (ss : list As.statement) (out : list Z) :
  As.encode ss = Some out -> Z.of_nat (length out) = Layout.image_size ss.
Proof.
  unfold As.encode. destruct (As.make_environment ss) as [e|]; simpl; [|discriminate].
  apply encode_loop_length.
Qed.

(** A label names the offset of the statement after it: the sum of the
    sizes of the statements before it. *)
Theorem label_address (pre post : list As.statement) (l : string) (e : As.environment) :
  As.make_environment (pre ++ As.label l :: post) = Some e ->
  As.constants e !! l = Some (Layout.image_size pre).
Proof.
  unfold As.make_environment. intros H.
  destruct (env_loop_split _ _ _ _ _ _ H) as (e1 & e2 & Hs & Hk).
  apply Hk. simpl in Hs.
  destruct (As.set (As.constants e1) l (0 + Layout.image_size pre)) as [cs|] eqn:E;
    simpl in Hs; [|discriminate].
  injection Hs as <- _. simpl. rewrite (set_new _ _ _ _ E). reflexivity.
Qed.

(** Every statement's cells sit in the image at the statement's offset. *)
Theorem encode_places_statement (pre post : list As.statement) (s : As.statement) (out : list Z) :
  As.encode (pre ++ s :: post) = Some out ->
  exists e out1 cells out2,
    As.make_environment (pre ++ s :: post) = Some e /\
    As.encode_statement e s = Some cells /\
    out = out1 ++ cells ++ out2 /\ Z.of_nat (length out1) = Layout.image_size pre.
Proof.
  unfold As.encode. destruct (As.make_environment _) as [e|] eqn:Ee; simpl; [|discriminate].
  intros H. destruct (encode_loop_split _ _ _ _ _ H) as (o1 & cells & o2 & Hc & Ho & Hl).
  exists e, o1, cells, o2. auto.
Qed.

(** A label on the k-th operand of an instruction names the cell of the
    image that holds that operand's (resolved) value: the instruction's
    offset plus k + 1. *)
Theorem operand_label_address (pre post : list As.statement) (i : As.instruction) (out : list Z)
    (k : nat) (l : string) (idx : Z) :
  As.encode (pre ++ As.instr i :: post) = Some out ->
  As.param_labels i !! k = Some (Some l, idx) ->
  exists e i' vs v,
    As.make_environment (pre ++ As.instr i :: post) = Some e /\
    As.resolve_instruction e i = Some i' /\ As.operand_values i' = Some vs /\
    idx = Z.of_nat k + 1 /\
    As.constants e !! l = Some (Layout.image_size pre + idx) /\
    vs !! k = Some v /\ out !! Z.to_nat (Layout.image_size pre + idx) = Some v.
Proof.
  intros H Hk.
  destruct (encode_places_statement _ _ _ _ H) as (e & o1 & cells & o2 & He & Hc & -> & Hl).
  simpl in Hc. destruct (As.resolve_instruction e i) as [i'|] eqn:Ei; simpl in Hc; [|discriminate].
  unfold As.encode_instruction in Hc.
  destruct (As.operand_values i') as [vs|] eqn:Ev; simpl in Hc; [|discriminate].
  injection Hc as <-.
  pose proof (resolve_instruction_labels _ _ _ Ei) as Hlab.
  destruct (param_labels_operands i' vs k (Some l) idx Ev) as [Hidx [v Hv]]; [congruence|].
  assert (Hl2 : As.constants e !! l = Some (Layout.image_size pre + idx)).
  { unfold As.make_environment in He.
    destruct (env_loop_split _ _ _ _ _ _ He) as (e1 & e2 & Hs & Hkeep).
    apply Hkeep. simpl in Hs.
    destruct (As.set_labels (As.constants e1) (0 + Layout.image_size pre) (As.param_labels i))
      as [cs|] eqn:E; simpl in Hs; [|discriminate].
    injection Hs as <-. simpl.
    rewrite (set_labels_in _ _ _ _ l idx E); [f_equal; lia|].
    apply list_elem_of_In, list_elem_of_lookup_2 with k. exact Hk. }
  assert (Ho : (o1 ++ (As.opcode i' :: vs) ++ o2) !! Z.to_nat (Layout.image_size pre + idx) = Some v).
  { subst idx. rewrite lookup_app_r by lia. simpl.
    replace (Z.to_nat (Layout.image_size pre + (Z.of_nat k + 1)) - length o1)%nat with (S k) by lia.
    simpl. rewrite lookup_app_l; [exact Hv | apply lookup_lt_Some in Hv; exact Hv]. }
  exists e, i', vs, v. repeat split; assumption.
Qed.

Lemma encode_image_size_witness :
  As.encode [As.instr Scenario.add_x; As.instr As.Halt; As.label "x"; As.dir (As.integer (As.literal 0))]
    = Some [1101; 2; 3; 5; 99; 0] /\
  Z.of_nat (length [1101; 2; 3; 5; 99; 0])
    = Layout.image_size [As.instr Scenario.add_x; As.instr As.Halt; As.label "x"; As.dir (As.integer (As.literal 0))].
Proof.
  assert (H : As.encode [As.instr Scenario.add_x; As.instr As.Halt; As.label "x"; As.dir (As.integer (As.literal 0))]
              = Some [1101; 2; 3; 5; 99; 0]) by (vm_compute; reflexivity).
  split; [exact H | exact (encode_image_size _ _ H)].
Defined.

Lemma label_address_witness :
  exists e, As.make_environment ([As.instr Scenario.add_x; As.instr As.Halt] ++ As.label "x" :: [As.dir (As.integer (As.literal 0))]) = Some e /\
    As.constants e !! "x" = Some (Layout.image_size [As.instr Scenario.add_x; As.instr As.Halt]).
Proof.
  destruct (As.make_environment ([As.instr Scenario.add_x; As.instr As.Halt] ++ As.label "x" :: [As.dir (As.integer (As.literal 0))])) as [e|] eqn:E.
  - exists e. split; [reflexivity | exact (label_address _ _ "x" e E)].
  - vm_compute in E. discriminate.
Defined.

Lemma operand_label_address_witness :
  As.encode ([] ++ As.instr Scenario.add_x :: [As.instr As.Halt; As.label "x"; As.dir (As.integer (As.literal 0))])
    = Some [1101; 2; 3; 5; 99; 0] /\
  As.param_labels Scenario.add_x !! 2%nat = Some (Some "y", 3) /\
  exists e i' vs v,
    As.make_environment ([] ++ As.instr Scenario.add_x :: [As.instr As.Halt; As.label "x"; As.dir (As.integer (As.literal 0))]) = Some e /\
    As.resolve_instruction e Scenario.add_x = Some i' /\ As.operand_values i' = Some vs /\
    3 = Z.of_nat 2 + 1 /\
    As.constants e !! "y" = Some (Layout.image_size [] + 3) /\
    vs !! 2%nat = Some v /\ [1101; 2; 3; 5; 99; 0] !! Z.to_nat (Layout.image_size [] + 3) = Some v.
Proof.
  assert (H : As.encode ([] ++ As.instr Scenario.add_x :: [As.instr As.Halt; As.label "x"; As.dir (As.integer (As.literal 0))])
              = Some [1101; 2; 3; 5; 99; 0]) by (vm_compute; reflexivity).
  assert (Hk : As.param_labels Scenario.add_x !! 2%nat = Some (Some "y", 3)) by reflexivity.
  split; [exact H|]. split; [exact Hk|].
  exact (operand_label_address [] _ Scenario.add_x _ 2 "y" 3 H Hk).
Defined.


(** ** Label names *)

Lemma digit_char_value (d : nat) : (d < 10)%nat ->
  (Ascii.nat_of_ascii (Ascii.ascii_of_nat (48 + d)) - 48)%nat = d.
Proof. intros Hd. rewrite Ascii.nat_ascii_embedding by lia. lia. Qed.

Lemma digit_char_is_digit (d : nat) : (d < 10)%nat ->
  Load.is_digit (Ascii.ascii_of_nat (48 + d)) = true.
Proof.
  intros Hd. unfold Load.is_digit, Load.code. rewrite Ascii.nat_ascii_embedding by lia.
  apply andb_true_intro; split; apply Nat.leb_le; lia.
Qed.

Lemma digits_of_value (fuel n : nat) (acc : string) (a : nat) : (n < fuel)%nat ->
  exists k, Layout.decimal_value a (Codegen.digits_of fuel n acc)
            = Layout.decimal_value (a * 10 ^ k + n) acc.
Proof.
  revert n acc a. induction fuel as [|f IH]; intros n acc a Hn; [lia|].
  cbn [Codegen.digits_of]. pose proof (Nat.mod_upper_bound n 10 ltac:(lia)) as Hm.
  destruct (n <? 10)%nat eqn:E.
  - apply Nat.ltb_lt in E. exists 1%nat. cbn [Layout.decimal_value]. rewrite digit_char_value by lia.
    rewrite Nat.mod_small by lia. f_equal; lia.
  - apply Nat.ltb_ge in E.
    assert (Hq : (n / 10 < f)%nat).
    { assert (n / 10 < n)%nat by (apply Nat.div_lt; lia). lia. }
    destruct (IH (n / 10)%nat (String.String (Ascii.ascii_of_nat (48 + n mod 10)) acc) a Hq)
      as [k Hk].
    exists (S k). rewrite Hk. cbn [Layout.decimal_value]. rewrite digit_char_value by lia. f_equal.
    rewrite (Nat.div_mod_eq n 10) at 3. rewrite Nat.pow_succ_r'. lia.
Qed.

Lemma to_string_value (n : nat) : Layout.decimal_value 0 (Codegen.to_string n) = n.
Proof.
  unfold Codegen.to_string. destruct (digits_of_value (S n) n "" 0 ltac:(lia)) as [k ->].
  reflexivity.
Qed.

Lemma digits_of_head (fuel n : nat) (acc : string) : (0 < fuel)%nat ->
  exists c r, Codegen.digits_of fuel n acc = String.String c r /\ Load.is_digit c = true.
Proof.
  revert n acc. induction fuel as [|f IH]; intros n acc Hf; [lia|].
  pose proof (Nat.mod_upper_bound n 10 ltac:(lia)) as Hm. cbn [Codegen.digits_of].
  destruct (n <? 10)%nat.
  - do 2 eexists. split; [reflexivity | apply digit_char_is_digit; lia].
  - destruct f as [|f].
    + do 2 eexists. split; [reflexivity | apply digit_char_is_digit; lia].
    + apply IH. lia.
Qed.

Lemma to_string_inj (a b : nat) : Codegen.to_string a = Codegen.to_string b -> a = b.
Proof. intros H. rewrite <- (to_string_value a), <- (to_string_value b), H. reflexivity. Qed.

Lemma digit_free_app (p1 p2 : string) (a b : nat) :
  Forall (fun c => Load.is_digit c = false) (String.list_ascii_of_string p1) ->
  Forall (fun c => Load.is_digit c = false) (String.list_ascii_of_string p2) ->
  (p1 +:+ Codegen.to_string a)%string = (p2 +:+ Codegen.to_string b)%string -> p1 = p2.
Proof.
  destruct (digits_of_head (S a) a "" ltac:(lia)) as (ca & ra & Ha & Hda).
  destruct (digits_of_head (S b) b "" ltac:(lia)) as (cb & rb & Hb & Hdb).
  unfold Codegen.to_string. rewrite Ha, Hb.
  revert p2. induction p1 as [|c1 p1 IH]; intros [|c2 p2] H1 H2 H; cbn [String.append String.list_ascii_of_string] in *.
  - reflexivity.
  - injection H as <- _. inversion H2; congruence.
  - injection H as -> _. inversion H1; congruence.
  - injection H as <- H. inversion H1; inversion H2; subst. f_equal. apply IH; assumption.
Qed.

(** [context::label] makes the names of distinct (prefix, counter) pairs
    distinct, for the digit-free prefixes the generator uses: the name
    [n ++ to_string id] determines both [n] and [id]. *)
Theorem label_name_injective (n1 n2 : string) (id1 id2 : nat) :
  Forall (fun c => Load.is_digit c = false) (String.list_ascii_of_string n1) ->
  Forall (fun c => Load.is_digit c = false) (String.list_ascii_of_string n2) ->
  (n1 +:+ Codegen.to_string id1)%string = (n2 +:+ Codegen.to_string id2)%string ->
  n1 = n2 /\ id1 = id2.
Proof.
  intros H1 H2 H. pose proof (digit_free_app _ _ _ _ H1 H2 H) as <-.
  split; [reflexivity|]. apply to_string_inj. exact (String.app_inj n1 _ _ H).
Qed.

(** ** What code generation keeps *)

Section GenInvariants.
Import Codegen GenInv.

Lemma statement_nested_ind (P : Compiler.statement -> Prop)
    (Hconst : forall n e, P (Compiler.constant n e))
    (Hscalar : forall n, P (Compiler.declare_scalar n))
    (Harray : forall n e, P (Compiler.declare_array n e))
    (Hassign : forall l r, P (Compiler.assign l r))
    (Hadd : forall l r, P (Compiler.add_assign l r))
    (Hif : forall c t e, Forall P t -> Forall P e -> P (Compiler.if_statement c t e))
    (Hwhile : forall c b, Forall P b -> P (Compiler.while_statement c b))
    (Hout : forall e, P (Compiler.output_statement e))
    (Hret : forall e, P (Compiler.return_statement e))
    (Hbreak : P Compiler.break_statement)
    (Hcont : P Compiler.continue_statement)
    (Hhalt : P Compiler.halt_statement) :
  forall st, P st.
Proof.
  refine (fix IH (st : Compiler.statement) : P st := _).
  destruct st as [n e|n|n e|l r|l r|c t e|c b|e|e| | | ];
    [apply Hconst | apply Hscalar | apply Harray | apply Hassign | apply Hadd | |
     | apply Hout | apply Hret | exact Hbreak | exact Hcont | exact Hhalt].
  - apply Hif.
    + exact ((fix go (l : list Compiler.statement) : Forall P l :=
               match l return Forall P l with [] => @List.Forall_nil _ P | x :: xs => @List.Forall_cons _ P x xs (IH x) (go xs) end) t).
    + exact ((fix go (l : list Compiler.statement) : Forall P l :=
               match l return Forall P l with [] => @List.Forall_nil _ P | x :: xs => @List.Forall_cons _ P x xs (IH x) (go xs) end) e).
  - apply Hwhile.
    exact ((fix go (l : list Compiler.statement) : Forall P l :=
             match l return Forall P l with [] => @List.Forall_nil _ P | x :: xs => @List.Forall_cons _ P x xs (IH x) (go xs) end) b).
Qed.

Lemma grows_refl (s : cg) : grows s s.
Proof. repeat split; auto. exists []. rewrite app_nil_r. reflexivity. Qed.

Lemma grows_trans (s1 s2 s3 : cg) : grows s1 s2 -> grows s2 s3 -> grows s1 s3.
Proof.
  intros (Hc1 & [t1 Ht1] & Hf1 & Ha1 & Hm1) (Hc2 & [t2 Ht2] & Hf2 & Ha2 & Hm2).
  repeat split; try congruence.
  - intros n. specialize (Hc1 n). specialize (Hc2 n). lia.
  - exists (t1 ++ t2). rewrite Ht2, Ht1, app_assoc. reflexivity.
Qed.

Lemma keeps_refl (s : cg) : keeps s s.
Proof. split; [apply grows_refl | auto]. Qed.

Lemma keeps_trans (s1 s2 s3 : cg) : keeps s1 s2 -> keeps s2 s3 -> keeps s1 s3.
Proof.
  intros (G1 & T1 & L1) (G2 & T2 & L2). split; [eapply grows_trans; eauto | split; congruence].
Qed.

Lemma ok_ret {A} (x : A) : ok (ret x).
Proof. intros s y s' H. injection H as _ <-. apply keeps_refl. Qed.

Lemma ok_die {A} : ok (@die A).
Proof. intros s y s' H. discriminate. Qed.

Lemma ok_gets {A} (f : cg -> A) : ok (gets f).
Proof. intros s y s' H. injection H as _ <-. apply keeps_refl. Qed.

Lemma ok_bind {A B} (m : M A) (k : A -> M B) : ok m -> (forall x, ok (k x)) -> ok (bind m k).
Proof.
  intros Hm Hk s y s' H. unfold bind in H.
  destruct (m s) as [[x s1]|] eqn:E; [|discriminate].
  eapply keeps_trans; [exact (Hm _ _ _ E) | exact (Hk _ _ _ _ H)].
Qed.

Lemma ok_pop_bind {A B} (m : M A) (k : A -> M B) : ok m -> (forall x, ok_pop (k x)) -> ok_pop (bind m k).
Proof.
  intros Hm Hk s y s' H. unfold bind in H.
  destruct (m s) as [[x s1]|] eqn:E; [|discriminate].
  destruct (Hm _ _ _ E) as (G1 & T1 & _). destruct (Hk _ _ _ _ H) as (G2 & S2).
  split; [eapply grows_trans; eauto | congruence].
Qed.

Lemma ok_pop_pop_scope : ok_pop pop_scope.
Proof.
  intros s y s' H. injection H as _ <-. split; [|reflexivity].
  repeat split; auto. exists []. rewrite app_nil_r. reflexivity.
Qed.

Lemma push_scope_restores {A} (k : M A) (s s' : cg) (y : A) : ok_pop k ->
  (push_scope ;; k) s = Some (y, s') -> grows s s' /\ scope s' = scope s.
Proof.
  intros Hk H. unfold bind, push_scope, modify in H.
  destruct (scope s) as [|cur rest] eqn:Es.
  - destruct (Hk _ _ _ H) as (G & S). split; [exact G | rewrite S, Es; reflexivity].
  - destruct (Hk _ _ _ H) as (G & S). cbn in S. split; [exact G | rewrite S; reflexivity].
Qed.

Lemma ok_push_scope {A} (k : M A) : ok_pop k -> ok (push_scope ;; k).
Proof.
  intros Hk s y s' H. destruct (push_scope_restores k s s' y Hk H) as [G S].
  split; [exact G | rewrite S; auto].
Qed.

Lemma ok_emit (x : As.statement) : ok (emit x).
Proof.
  intros s y s' H. injection H as _ <-. split; [|auto].
  repeat split; auto. eexists. reflexivity.
Qed.

Lemma ok_label (n : string) : ok (label n).
Proof.
  intros s y s' H. injection H as _ <-. split; [|auto].
  repeat split; auto.
  - intros m. unfold counter; cbn. destruct (decide (m = n)) as [->|Hne].
    + rewrite lookup_insert_eq. cbn. lia.
    + rewrite lookup_insert_ne by congruence. lia.
  - exists []. rewrite app_nil_r. reflexivity.
Qed.

Lemma ok_modify_scope (f : cg -> list environment) :
  (forall s, tail (f s) = tail (scope s) /\ length (f s) = length (scope s)) ->
  ok (modify (fun s => set_scope s (f s))).
Proof.
  intros Hf s y s' H. injection H as _ <-. split; [|exact (Hf s)].
  repeat split; auto. exists []. rewrite app_nil_r. reflexivity.
Qed.

Lemma ok_update_current (f : environment -> environment) : ok (update_current f).
Proof.
  intros s y s' H. injection H as _ <-. destruct (scope s) as [|cur rest] eqn:Es.
  - apply keeps_refl.
  - split; [|cbn; rewrite Es; auto]. repeat split; auto. exists []. rewrite app_nil_r. reflexivity.
Qed.

Lemma ok_bump_max_size : ok bump_max_size.
Proof.
  intros s y s' H. injection H as _ <-. destruct (scope s) as [|cur rest] eqn:Es.
  - apply keeps_refl.
  - destruct (max_size s <? size cur); [|apply keeps_refl].
    split; [|auto]. repeat split; auto. exists []. rewrite app_nil_r. reflexivity.
Qed.

Lemma ok_get_local_variable (n : string) : ok (get_local_variable n).
Proof.
  intros s y s' H. unfold get_local_variable in H.
  destruct (decide _); [injection H as _ <-; apply keeps_refl|].
  destruct (local_slot _ _); [injection H as _ <-; apply keeps_refl | discriminate].
Qed.

Lemma ok_get_constant (n : string) : ok (get_constant n).
Proof.
  intros s y s' H. unfold get_constant in H.
  repeat (destruct (_ !! _) || destruct (scope_constant _ _)); try discriminate;
    injection H as _ <-; apply keeps_refl.
Qed.

Create HintDb gen_ok.
#[local] Hint Resolve ok_ret ok_die ok_gets ok_emit ok_label ok_update_current
  ok_bump_max_size ok_get_local_variable ok_get_constant ok_pop_pop_scope : gen_ok.

Ltac ok_solve :=
  repeat first
    [ progress eauto with gen_ok
    | apply ok_push_scope
    | apply ok_bind; [|intros]
    | apply ok_pop_bind; [|intros]
    | match goal with |- ok (match ?x with _ => _ end) => destruct x end ].

Lemma ok_gen_binary (prefix : string) (mk : As.calculation -> As.instruction) (l r : M As.input_param) :
  ok l -> ok r -> ok (gen_binary prefix mk l r).
Proof. intros Hl Hr. unfold gen_binary. ok_solve. Qed.

Lemma ok_gen_addr_read (v : M As.input_param) : ok v -> ok (gen_addr_read v).
Proof. intros Hv. unfold gen_addr_read. ok_solve. Qed.

Lemma ok_gen_expr (e : Compiler.expression) : ok (gen_expr e).
Proof.
  induction e; cbn [gen_expr];
    try (apply ok_gen_binary; auto; apply ok_gen_binary; auto with gen_ok).
  - apply ok_ret.
  - unfold gen_expr_name. ok_solve.
  - ok_solve.
  - apply ok_bind; [apply ok_gen_addr_read; exact IHe | intros; apply ok_ret].
Qed.

Lemma ok_gen_addr (e : Compiler.expression) : ok (gen_addr e).
Proof.
  destruct e; cbn [gen_addr]; try apply ok_die.
  - unfold gen_addr_name. ok_solve.
  - apply ok_gen_addr_read, ok_gen_expr.
Qed.

Lemma ok_eval_expr (e : Compiler.expression) : ok (eval_expr e).
Proof.
  induction e; cbn [eval_expr]; try apply ok_die; eauto with gen_ok;
    unfold fold_literals; ok_solve.
Qed.

#[local] Hint Resolve ok_gen_expr ok_gen_addr ok_eval_expr : gen_ok.

Lemma ok_gen_list (l : list Compiler.statement) :
  Forall (fun x => ok (gen_stmt x)) l -> ok (gen_list l).
Proof.
  induction 1 as [|x xs Hx Hxs IH]; cbn [gen_list]; [apply ok_ret|].
  apply ok_bind; [exact Hx | intros; exact IH].
Qed.

Lemma ok_gen_stmt (st : Compiler.statement) : ok (gen_stmt st).
Proof.
  induction st using statement_nested_ind; cbn [gen_stmt];
    unfold check_not_local, define_constant, define_scalar, define_array, set_loop_labels, current;
    try (ok_solve; fail).
  - ok_solve;
      repeat match goal with Hf : Forall _ (_ :: _) |- _ => inversion Hf; subst; clear Hf end;
      first [assumption | apply ok_gen_list; assumption].
  - ok_solve; apply ok_gen_list; assumption.
Qed.
Lemma gen_stmts_keeps (l : list Compiler.statement) (s s' : cg) (u : unit) :
  gen_stmts l s = Some (u, s') -> grows s s' /\ scope s' = scope s.
Proof.
  unfold gen_stmts. apply push_scope_restores.
  apply ok_pop_bind; [|intros; apply ok_pop_pop_scope].
  apply ok_gen_list. apply Forall_forall. intros x _. apply ok_gen_stmt.
Qed.


Lemma label_result (n : string) (s s' : cg) (x : string) :
  label n s = Some (x, s') ->
  x = (n +:+ to_string (counter s n))%string /\ counter s' n = S (counter s n).
Proof.
  unfold label, counter. intros H. injection H as <- <-. cbn.
  rewrite lookup_insert_eq. split; reflexivity.
Qed.


End GenInvariants.



Lemma label_name_injective_witness :
  Forall (fun c => Load.is_digit c = false) (String.list_ascii_of_string "whilestart") /\
  Forall (fun c => Load.is_digit c = false) (String.list_ascii_of_string "whilestart") /\
  ("whilestart" +:+ Codegen.to_string 12)%string = ("whilestart" +:+ Codegen.to_string 12)%string /\
  "whilestart" = "whilestart" /\ 12%nat = 12%nat.
Proof.
  assert (D : Forall (fun c => Load.is_digit c = false) (String.list_ascii_of_string "whilestart"))
    by (vm_compute; repeat constructor).
  split; [exact D|]. split; [exact D|]. split; [reflexivity|].
  exact (label_name_injective "whilestart" "whilestart" 12 12 D D eq_refl).
Defined.

(** ** Module-level code generation *)

Section GlobalProperties.
Import Codegen Global.

Lemma has_global_constants (m : module_context) (n : string) :
  is_Some (module_constants m !! n) -> has_global m n = true.
Proof.
  intros H. unfold has_global. rewrite (bool_decide_eq_true_2 _ H). rewrite !orb_true_r. reflexivity.
Qed.

Lemma has_global_imported (m : module_context) (n : string) :
  is_Some (imported_constants m !! n) -> has_global m n = true.
Proof.
  intros H. unfold has_global. rewrite (bool_decide_eq_true_2 _ H). rewrite orb_true_r. reflexivity.
Qed.

Lemma has_global_imported_var (m : module_context) (n : string) :
  n ∈ imported_variables m -> has_global m n = true.
Proof. intros H. unfold has_global. rewrite (bool_decide_eq_true_2 _ H). reflexivity. Qed.

Lemma has_global_var (m : module_context) (n : string) :
  n ∈ variables m -> has_global m n = true.
Proof.
  intros H. unfold has_global. rewrite (bool_decide_eq_true_2 (n ∈ variables m) H).
  rewrite orb_true_r. reflexivity.
Qed.

Lemma is_Some_emplace {V} (m : gmap string V) (k k' : string) (v : V) :
  is_Some (m !! k') -> is_Some (emplace m k v !! k').
Proof.
  unfold emplace. destruct (m !! k) eqn:E; [auto|].
  intros H. destruct (decide (k = k')) as [->|Hne].
  - rewrite lookup_insert_eq. eauto.
  - rewrite lookup_insert_ne by exact Hne. exact H.
Qed.

Lemma is_Some_emplace_new {V} (m : gmap string V) (k : string) (v : V) :
  is_Some (emplace m k v !! k).
Proof.
  unfold emplace. destruct (m !! k) eqn:E; [rewrite E; eauto | rewrite lookup_insert_eq; eauto].
Qed.

Lemma has_global_with_constant (m : module_context) (n n' : string) (v : As.immediate) :
  has_global m n' = true -> has_global (with_constant m n v) n' = true.
Proof.
  unfold has_global. cbn. intros H.
  destruct (bool_decide (is_Some (module_constants m !! n'))) eqn:E.
  - apply bool_decide_eq_true_1 in E.
    rewrite (bool_decide_eq_true_2 _ (is_Some_emplace _ n _ v E)). rewrite !orb_true_r. reflexivity.
  - rewrite orb_false_r in H. rewrite H. reflexivity.
Qed.

Lemma has_global_with_variable (m : module_context) (n n' : string) :
  has_global m n' = true -> has_global (with_variable m n) n' = true.
Proof.
  unfold has_global. cbn. intros H.
  destruct (bool_decide (n' ∈ variables m)) eqn:E.
  - apply bool_decide_eq_true_1 in E.
    rewrite (bool_decide_eq_true_2 (n' ∈ n :: variables m)) by (apply elem_of_cons; auto).
    rewrite !orb_true_r. reflexivity.
  - destruct (bool_decide (n' ∈ imported_variables m)), (bool_decide (is_Some (imported_constants m !! n')));
      cbn in *; auto.
    destruct (bool_decide (n' ∈ n :: variables m)); cbn in *; auto.
Qed.

(** After a declaration, the module has a global of its name, and every
    global it had before. *)
Lemma gen_decl_globals (d : declaration) (g g' : gctx) :
  gen_decl d g = Some g' ->
  has_global (g_module g') (decl_name d) = true /\
  (forall n, has_global (g_module g) n = true -> has_global (g_module g') n = true).
Proof.
  destruct d as [n e|n|n e|n ps body]; cbn [gen_decl decl_name]; intros H.
  - destruct (has_global _ n); [discriminate|].
    destruct (Global.eval_expr _ e) as [v|]; cbn in H; [|discriminate]. injection H as <-. cbn.
    split; [apply has_global_constants, is_Some_emplace_new | intros; apply has_global_with_constant; auto].
  - destruct (has_global _ n); [discriminate|]. injection H as <-. cbn.
    split; [apply has_global_var; cbn; apply elem_of_cons; auto
           | intros; apply has_global_with_variable; auto].
  - destruct (has_global _ n); [discriminate|].
    destruct (Global.eval_expr _ e) as [[k|]|]; cbn in H; try discriminate. injection H as <-. cbn.
    split; [apply has_global_constants, is_Some_emplace_new | intros; apply has_global_with_constant; auto].
  - destruct ((gen_stmts body ;; gen_stmt (Compiler.return_statement (Compiler.e_literal 0)))
                (function_start g n ps)) as [[[] f]|]; cbn in H; [|discriminate].
    injection H as <-. cbn.
    split; [apply has_global_constants, is_Some_emplace_new | intros; apply has_global_with_constant; auto].
Qed.

Lemma gen_decls_globals (ds : list declaration) (g g' : gctx) :
  gen_decls ds g = Some g' ->
  (forall n, has_global (g_module g) n = true -> has_global (g_module g') n = true) /\
  (forall d, In d ds -> has_global (g_module g') (decl_name d) = true).
Proof.
  revert g. induction ds as [|d ds IH]; intros g H; cbn in H.
  - injection H as <-. split; [auto | intros d []].
  - destruct (gen_decl d g) as [g1|] eqn:E; cbn in H; [|discriminate].
    destruct (gen_decl_globals _ _ _ E) as [Hd Hk].
    destruct (IH _ H) as [Hk' Hin]. split; [auto|].
    intros d' [<-|Hd']; auto.
Qed.

Lemma add_exports_fold (deps : list module_exports) (m : module_context) (n : string) :
  (has_global m n = true \/
   exists dep, In dep deps /\ (n ∈ ex_variables dep \/ is_Some (ex_constants dep !! n))) ->
  variables m = [] -> module_constants m = ∅ ->
  has_global (fold_left add_exports deps m) n = true.
Proof.
  revert m. induction deps as [|dep deps IH]; intros m Hn Hv Hc; cbn.
  - destruct Hn as [Hn|(dep & [] & _)]. exact Hn.
  - apply IH; [| exact Hv | exact Hc].
    destruct Hn as [Hn|(dep' & [<-|Hin] & Hd)].
    + left. unfold has_global in *. cbn. rewrite Hv, Hc in *.
      destruct (bool_decide (n ∈ imported_variables m)) eqn:E1.
      * apply bool_decide_eq_true_1 in E1.
        rewrite (bool_decide_eq_true_2 (n ∈ imported_variables m ++ ex_variables dep))
          by (apply elem_of_app; auto). reflexivity.
      * cbn in Hn. rewrite orb_false_r, orb_false_r in Hn. apply bool_decide_eq_true_1 in Hn.
        destruct Hn as [v Hv'].
        rewrite (bool_decide_eq_true_2 (is_Some ((imported_constants m ∪ ex_constants dep) !! n)))
          by (rewrite (lookup_union_Some_l _ _ _ _ Hv'); eauto).
        rewrite orb_true_r. reflexivity.
    + left. destruct Hd as [Hd|[v Hd]].
      * apply has_global_imported_var. cbn. apply elem_of_app. auto.
      * apply has_global_imported. cbn.
        destruct (imported_constants m !! n) eqn:E.
        -- rewrite (lookup_union_Some_l _ _ _ _ E). eauto.
        -- rewrite lookup_union_r by exact E. rewrite Hd. eauto.
    + right. eauto.
Qed.

Lemma add_exports_fold_fields (deps : list module_exports) (m : module_context) :
  variables (fold_left add_exports deps m) = variables m /\
  module_constants (fold_left add_exports deps m) = module_constants m.
Proof.
  revert m. induction deps as [|dep deps IH]; intros m; cbn; [auto|].
  destruct (IH (add_exports m dep)) as [-> ->]. auto.
Qed.

(** A constant, variable or array is rejected when its name is already a
    global of the module: [heapstart], every name the imported modules
    export, and every name an earlier declaration of the module defined
    (functions included). *)
Theorem global_redefinition_rejected (deps : list module_exports) (ds : list declaration)
    (g g' : gctx) (n : string) (e e' : Compiler.expression) :
  g_module g = make_module_context deps -> gen_decls ds g = Some g' ->
  (n = "heapstart" \/ In n (map decl_name ds) \/
   exists dep, In dep deps /\ (n ∈ ex_variables dep \/ is_Some (ex_constants dep !! n))) ->
  gen_decl (d_constant n e) g' = None /\ gen_decl (d_scalar n) g' = None /\
  gen_decl (d_array n e') g' = None.
Proof.
  intros Hm Hds Hn.
  destruct (gen_decls_globals _ _ _ Hds) as [Hkeep Hin].
  assert (Hg : has_global (g_module g') n = true).
  { destruct Hn as [->|[Hn|Hn]].
    - apply Hkeep. rewrite Hm. unfold make_module_context.
      apply add_exports_fold; [|reflexivity|reflexivity].
      left. apply has_global_imported. cbn. rewrite lookup_singleton_eq. eauto.
    - apply in_map_iff in Hn. destruct Hn as (d & <- & Hd). apply Hin, Hd.
    - apply Hkeep. rewrite Hm. unfold make_module_context. apply add_exports_fold; auto. }
  cbn [gen_decl]. rewrite Hg. auto.
Qed.


(** A module-level constant expression sees only the module's own
    constants ([constants.at]): a name the module only imports, such as
    [heapstart], makes a global [const] or array size fatal, while the
    same name in a function's constant expression is found among the
    imported constants. *)
Theorem module_constant_ignores_imports (g : gctx) (s : cg) (x n : string) (v : As.immediate) :
  module_constants (g_module g) !! n = None ->
  gen_decl (d_constant x (Compiler.e_name n)) g = None /\
  gen_decl (d_array x (Compiler.e_name n)) g = None /\
  (imported_constants (module s) !! n = Some v -> module_constants (module s) !! n = None ->
   scope_constant (scope s) n = None ->
   Codegen.eval_expr (Compiler.e_name n) s = Some (v, s)).
Proof.
  intros Hn. cbn [gen_decl Global.eval_expr]. rewrite Hn.
  split; [destruct (has_global _ x); reflexivity|].
  split; [destruct (has_global _ x); reflexivity|].
  intros Hi Hm Hs. cbn [Codegen.eval_expr]. unfold get_constant. rewrite Hs, Hm, Hi. reflexivity.
Qed.

(** A global array reserves one zero cell per element after its label,
    the element count converted to a 32-bit [int] first: a negative count
    reserves no cells. *)
Theorem array_cells (g g' : gctx) (n : string) (e : Compiler.expression) :
  gen_decl (d_array n e) g = Some g' ->
  exists k, Global.eval_expr (g_module g) e = Some (As.literal k) /\
    g_data g' = g_data g ++ As.label ("gv_" +:+ n) :: repeat zero_cell (Z.to_nat (to_int k)) /\
    module_constants (g_module g') !! n = Some (As.name ("gv_" +:+ n)) /\
    (0 <= k < 2 ^ 31 -> length (g_data g') = (length (g_data g) + 1 + Z.to_nat k)%nat) /\
    (- 2 ^ 31 <= k <= 0 -> length (g_data g') = (length (g_data g) + 1)%nat).
Proof.
  cbn [gen_decl]. destruct (has_global (g_module g) n) eqn:Eg; [discriminate|].
  destruct (Global.eval_expr (g_module g) e) as [[k|]|]; cbn; try discriminate.
  intros H. injection H as <-. exists k. cbn.
  assert (Hc : module_constants (g_module g) !! n = None).
  { destruct (module_constants (g_module g) !! n) eqn:E; [|reflexivity].
    rewrite has_global_constants in Eg by (rewrite E; eauto). discriminate. }
  unfold emplace. rewrite Hc, lookup_insert_eq.
  repeat split; intros Hk; rewrite length_app; cbn; rewrite repeat_length; unfold to_int.
  - rewrite Z.mod_small by lia. lia.
  - rewrite Z.mod_small by lia. lia.
Qed.

Lemma gen_return_zero_text (s s' : cg) (u : unit) :
  gen_stmt (Compiler.return_statement (Compiler.e_literal 0)) s = Some (u, s') ->
  exists t, text s' = text s ++ t /\
    last t = Some (jz zero (As.input_of_output (address_of ("func_" +:+ function_name s +:+ "_return")))).
Proof.
  cbn. intros H. injection H as _ <-. cbn.
  eexists. split; [rewrite <- !app_assoc; reflexivity | reflexivity].
Qed.


Lemma image_size_app (l1 l2 : list As.statement) :
  Layout.image_size (l1 ++ l2) = Layout.image_size l1 + Layout.image_size l2.
Proof.
  unfold Layout.image_size. induction l1 as [|x l1 IH]; cbn [app fold_right]; [reflexivity|].
  rewrite IH. lia.
Qed.

(** [heapstart], the label [context::finish] puts after text, read-only
    data and data, names the first cell past the assembled image. *)
Theorem heapstart_past_image (g : gctx) (out : list Z) :
  As.encode (finish g) = Some out ->
  exists e, As.make_environment (finish g) = Some e /\
    As.constants e !! "heapstart" = Some (Z.of_nat (length out)).
Proof.
  intros H. pose proof (encode_image_size_helper _ _ H) as Hl.
  unfold As.encode in H. destruct (As.make_environment (finish g)) as [e|] eqn:Ee; [|discriminate].
  exists e. split; [reflexivity|].
  unfold finish in Ee. rewrite app_assoc, app_assoc in Ee.
  unfold As.make_environment in Ee.
  destruct (env_loop_split _ _ _ _ [] _ Ee) as (e1 & e2 & Hs & Hk).
  apply Hk. cbn in Hs.
  destruct (As.set (As.constants e1) "heapstart" _) as [cs|] eqn:Es; cbn in Hs; [|discriminate].
  injection Hs as <- _. cbn. rewrite (set_new _ _ _ _ Es). f_equal.
  rewrite Hl. unfold finish. rewrite app_assoc, app_assoc, !image_size_app. cbn. lia.
Qed.

End GlobalProperties.

Lemma global_redefinition_rejected_witness :
  exists g', Global.gen_decls [Global.d_scalar "x"] GlobalScenario.init_g = Some g' /\
    Global.gen_decl (Global.d_constant "heapstart" (Compiler.e_literal 1)) g' = None /\
    Global.gen_decl (Global.d_scalar "heapstart") g' = None /\
    Global.gen_decl (Global.d_array "heapstart" (Compiler.e_literal 1)) g' = None.
Proof.
  destruct (Global.gen_decls [Global.d_scalar "x"] GlobalScenario.init_g) as [g'|] eqn:E;
    [|vm_compute in E; discriminate].
  exists g'. split; [reflexivity|].
  exact (global_redefinition_rejected [] _ GlobalScenario.init_g g' "heapstart" _ _ eq_refl E
           (or_introl eq_refl)).
Defined.


Lemma module_constant_ignores_imports_witness :
  Codegen.module_constants (Global.g_module GlobalScenario.init_g) !! "heapstart" = None /\
  Global.gen_decl (Global.d_constant "c" (Compiler.e_name "heapstart")) GlobalScenario.init_g = None /\
  Global.gen_decl (Global.d_array "c" (Compiler.e_name "heapstart")) GlobalScenario.init_g = None /\
  Codegen.eval_expr (Compiler.e_name "heapstart") Scenario.init_cg
    = Some (As.name "heapstart", Scenario.init_cg).
Proof.
  assert (Hn : Codegen.module_constants (Global.g_module GlobalScenario.init_g) !! "heapstart" = None)
    by reflexivity.
  destruct (module_constant_ignores_imports GlobalScenario.init_g Scenario.init_cg "c" "heapstart"
              (As.name "heapstart") Hn) as (H1 & H2 & H3).
  split; [exact Hn|]. split; [exact H1|]. split; [exact H2|].
  apply H3; reflexivity.
Defined.

Lemma array_cells_witness :
  exists g', Global.gen_decl (Global.d_array "a" (Compiler.e_literal 3)) GlobalScenario.init_g = Some g' /\
  exists k, Global.eval_expr (Global.g_module GlobalScenario.init_g) (Compiler.e_literal 3) = Some (As.literal k) /\
    Global.g_data g' = Global.g_data GlobalScenario.init_g ++
      As.label ("gv_" +:+ "a") :: repeat Global.zero_cell (Z.to_nat (Global.to_int k)) /\
    Codegen.module_constants (Global.g_module g') !! "a" = Some (As.name ("gv_" +:+ "a")) /\
    (0 <= k < 2 ^ 31 -> length (Global.g_data g') = (length (Global.g_data GlobalScenario.init_g) + 1 + Z.to_nat k)%nat) /\
    (- 2 ^ 31 <= k <= 0 -> length (Global.g_data g') = (length (Global.g_data GlobalScenario.init_g) + 1)%nat).
Proof.
  destruct (Global.gen_decl (Global.d_array "a" (Compiler.e_literal 3)) GlobalScenario.init_g)
    as [g'|] eqn:E; [|vm_compute in E; discriminate].
  exists g'. split; [reflexivity|]. exact (array_cells _ g' "a" _ E).
Defined.


Lemma heapstart_past_image_witness :
  exists g, Global.gen_decls [Global.d_scalar "x"] GlobalScenario.init_g = Some g /\
    As.encode (Global.finish g) = Some [0] /\
    exists e, As.make_environment (Global.finish g) = Some e /\
      As.constants e !! "heapstart" = Some (Z.of_nat (length [0])).
Proof.
  destruct (Global.gen_decls [Global.d_scalar "x"] GlobalScenario.init_g) as [g|] eqn:E;
    [|vm_compute in E; discriminate].
  assert (H : As.encode (Global.finish g) = Some [0]) by (injection E as <-; vm_compute; reflexivity).
  exists g. split; [reflexivity|]. split; [exact H|].
  exact (heapstart_past_image g [0] H).
Defined.

(** ** The source parser's scanning primitives *)

Lemma skip_to_newline_suffix (s : list Ascii.ascii) :
  exists pre, s = pre ++ Compiler.skip_to_newline s.
Proof.
  induction s as [|c s [pre IH]]; cbn; [exists []; reflexivity|].
  destruct (Ascii.eqb c Load.newline); [exists []; reflexivity|].
  exists (c :: pre). cbn. rewrite <- IH. reflexivity.
Qed.

Lemma skip_whitespace_stops (fuel : nat) (s : list Ascii.ascii) : (length s <= fuel)%nat ->
  (exists pre, s = pre ++ Compiler.skip_whitespace fuel s) /\
  (Compiler.skip_whitespace fuel s = [] \/
   exists c r, Compiler.skip_whitespace fuel s = c :: r /\ c <> Compiler.space /\ c <> Compiler.hash).
Proof.
  revert s. induction fuel as [|f IH]; intros s Hs.
  - destruct s; cbn in Hs; [|lia]. cbn. split; [exists []; reflexivity | auto].
  - destruct s as [|c s']; cbn; [split; [exists []; reflexivity | auto]|].
    destruct (Ascii.eqb c Compiler.space) eqn:Es.
    + cbn in Hs. destruct (IH s' ltac:(lia)) as [[pre Hpre] Hstop]. split; [|exact Hstop].
      exists (c :: pre). cbn. rewrite <- Hpre. reflexivity.
    + destruct (Ascii.eqb c Compiler.hash) eqn:Eh.
      * destruct (skip_to_newline_suffix s') as [pre1 Hpre1].
        assert (Hl : (length (Compiler.skip_to_newline s') <= f)%nat).
        { cbn in Hs. rewrite Hpre1, length_app in Hs. lia. }
        destruct (IH _ Hl) as [[pre2 Hpre2] Hstop]. split; [|exact Hstop].
        exists (c :: pre1 ++ pre2). cbn. rewrite <- app_assoc, <- Hpre2, <- Hpre1. reflexivity.
      * split; [exists []; reflexivity|]. right. exists c, s'. split; [reflexivity|].
        apply Ascii.eqb_neq in Es, Eh. auto.
Qed.

(** [parser::skip_whitespace] removes a prefix of the text and stops at
    the end or at a character that is neither a space nor the ['#'] of a
    comment (a comment ends at its newline, which is kept). *)
Theorem skip_stops_at_token (s : list Ascii.ascii) :
  (exists pre, s = pre ++ Compiler.skip s) /\
  (Compiler.skip s = [] \/
   exists c r, Compiler.skip s = c :: r /\ c <> Compiler.space /\ c <> Compiler.hash).
Proof. apply skip_whitespace_stops. lia. Qed.

Lemma take_alnum_split (t : list Ascii.ascii) :
  exists rest, t = Compiler.take_alnum t ++ rest /\
    (rest = [] \/ exists c r, rest = c :: r /\ Compiler.is_alnum c = false).
Proof.
  induction t as [|c t [rest [IH Hr]]]; cbn.
  - exists []. auto.
  - destruct (Compiler.is_alnum c) eqn:E.
    + exists rest. cbn. rewrite <- IH. auto.
    + exists (c :: t). split; [reflexivity|]. right. eauto.
Qed.

(** [parser::consume_name] only takes a whole name: when it succeeds, the
    text after whitespace was the name followed by the end of the text or
    by a character that cannot continue a name (so ["if"] is not taken
    from ["iffy"]); when it fails, nothing but whitespace is consumed. *)
Theorem consume_name_whole_word (v : string) (s r : list Ascii.ascii) (ok : bool) :
  Compiler.consume_name v s = (ok, r) ->
  if ok then Compiler.skip s = String.list_ascii_of_string v ++ r /\
             (r = [] \/ exists c r', r = c :: r' /\ Compiler.is_alnum c = false)
  else r = Compiler.skip s.
Proof.
  unfold Compiler.consume_name, Compiler.peek_name.
  destruct (take_alnum_split (Compiler.skip s)) as (rest & Ht & Hr).
  destruct (decide (Compiler.take_alnum (Compiler.skip s) = String.list_ascii_of_string v)) as [E|E];
    intros H; injection H as <- <-; [|reflexivity].
  rewrite E in Ht.
  assert (Hd : drop (length (String.list_ascii_of_string v)) (Compiler.skip s) = rest)
    by (rewrite Ht, drop_app_length; reflexivity).
  rewrite Hd. split; [exact Ht | exact Hr].
Qed.

Lemma consume_name_whole_word_witness :
  Compiler.consume_name "if" (String.list_ascii_of_string "  if x")
    = (true, String.list_ascii_of_string " x") /\
  Compiler.skip (String.list_ascii_of_string "  if x")
    = String.list_ascii_of_string "if" ++ String.list_ascii_of_string " x" /\
  (String.list_ascii_of_string " x" = [] \/
   exists c r', String.list_ascii_of_string " x" = c :: r' /\ Compiler.is_alnum c = false).
Proof.
  assert (H : Compiler.consume_name "if" (String.list_ascii_of_string "  if x")
              = (true, String.list_ascii_of_string " x")) by (vm_compute; reflexivity).
  split; [exact H|]. exact (consume_name_whole_word "if" _ _ true H).
Defined.
